(** * Dependency-graph executor of the 2D canvas notebook backend

    A shallow embedding of [src/backend/code_executor.py] (class
    [CodeExecutor]): the adjacency built by [execute_with_dependencies],
    the memoised, cycle-guarded resolver [_execute_dag_node], the
    evaluator [_execute_single_box] that swallows [Exception]s, the result
    formatter [_execute_box_code] and the last-expression capture
    [_execute_code].

    Python's [exec] and the calls into Python objects ([str], [hasattr],
    [_repr_html_], [savefig]) are what the code does not define: they are
    parameters of the development, together with the AST rewrite of the
    last expression ([rewrite_last]) and the traceback text.  Exceptions
    are all of Python's, [SystemExit] included, which the handlers
    [except Exception] let through.  The Python dicts that are shared by
    reference (the environments stored in the execution cache) live in an
    explicit heap, so that aliasing is visible. *)

From Stdlib Require Import String Ascii ZArith.
From Stdlib Require PrimFloat.
From stdpp Require Import base gmap list strings sets pretty.

Open Scope string_scope.

(** ** Data model *)

(** The name under which [_execute_code] stores the last expression. *)
Definition last_expr_key : string := "_last_expr_result".

(** What one call [exec(code, env)] does, with stdout/stderr captured:
    the dict after the run (partially updated when the run raised), the
    new interpreter state, the captured streams, and the exception if one
    escaped. *)
Record exec_out (V W E : Type) := mk_exec_out {
  eo_env : gmap string V;
  eo_world : W;
  eo_stdout : string;
  eo_stderr : string;
  eo_exc : option E
}.
Arguments mk_exec_out {V W E}.
Arguments eo_env {V W E}.
Arguments eo_world {V W E}.
Arguments eo_stdout {V W E}.
Arguments eo_stderr {V W E}.
Arguments eo_exc {V W E}.

(** What a call into Python objects does ([str(v)], [v._repr_html_()],
    [v.savefig(...)], [hasattr(v, ...)], [str(e)]): user-defined methods
    may run, change the interpreter state and raise. *)
Record call_out (W E A : Type) := mk_call_out {
  cl_world : W;
  cl_ret : E + A
}.
Arguments mk_call_out {W E A}.
Arguments cl_world {W E A}.
Arguments cl_ret {W E A}.

(** The Python interpreter, as far as [CodeExecutor] uses it. *)
Class Interp := {
  (** Python values, with [None] *)
  val : Type;
  vnone : val;
  (** box contents (source text) *)
  code : Type;
  (** exceptions: instances of [BaseException] *)
  exc : Type;
  (** [isinstance(e, Exception)]: false for [SystemExit] (raised by
      [exit()] and [sys.exit()]), [KeyboardInterrupt], [GeneratorExit] *)
  is_exception : exc -> bool;
  (** interpreter-wide state outside the globals dict: [sys.modules],
      module attributes, pyplot's current figure, random generators, and
      every Python object other than the dicts the executor handles *)
  world : Type;
  (** the builtin [exec(code, env)] *)
  exec_py : code -> gmap string val -> world -> exec_out val world exc;
  (** lines 200-213 of [_execute_code]: when [ast.parse] succeeds and the
      last statement is an expression, the text with that line replaced
      by [_last_expr_result = <line>]; [None] otherwise (also when parsing
      fails, which the bare [except] turns into the plain path) *)
  rewrite_last : code -> option code;
  (** [isinstance(v, matplotlib.figure.Figure)] *)
  is_figure : val -> bool;
  (** [hasattr(v, '_repr_html_')] *)
  has_html : val -> world -> call_out world exc bool;
  (** [v.savefig(buf, format='png', ...)] followed by the base64 encoding *)
  savefig_png : val -> world -> call_out world exc string;
  (** [v._repr_html_()] *)
  repr_html : val -> world -> call_out world exc string;
  (** [v is None] *)
  is_none : val -> bool;
  (** [str(v)] *)
  py_str : val -> world -> call_out world exc string;
  (** [type(e).__name__] *)
  exc_type_name : exc -> string;
  (** [str(e)] *)
  exc_str : exc -> world -> call_out world exc string;
  (** [traceback.format_exc()] *)
  format_exc : string;
  (** [str.strip()] *)
  strip : string -> string
}.

(** The two [ValueError]s raised by the resolver (the [raise]s of lines
    69 and 75).  [ErrFuel] is the bound on the recursion depth of the
    embedding; [dag_node_fuel_enough] shows it is never reached. *)
Inductive error := ErrCycle (n : string) | ErrNotFound (n : string) | ErrFuel.

Definition error_message (e : error) : string :=
  match e with
  | ErrCycle n => "Cycle detected in dependency graph at node " ++ n
  | ErrNotFound n => "Box with ID " ++ n ++ " not found in graph"
  | ErrFuel => "maximum recursion depth exceeded"
  end.

Definition error_type (e : error) : string :=
  match e with ErrFuel => "RecursionError" | _ => "ValueError" end.

(** A globals dict used as execution environment. *)
Abbreviation env := (gmap string val).

Section Executor.
Context `{I : Interp}.

(** The outcome of a computation: a value, one of the resolver's
    [ValueError]s (all subclasses of [Exception]), or an exception raised
    by Python code of a box or by a method it defined. *)
Inductive res (A : Type) := Ok (a : A) | Raise (e : error) | PyRaise (e : exc).
Arguments Ok {A} a.
Arguments Raise {A} e.
Arguments PyRaise {A} e.

(** Boxes and arrows as the workspace JSON has them; only the fields the
    executor reads. *)
Record box := mk_box { box_id : string; content : code }.
Record arrow := mk_arrow { arrow_start : string; arrow_end : string }.

(** The result dict returned to the caller: [output] is either a string
    or the structured record [{text_output, data}]. *)
Inductive output :=
| OText (s : string)
| OStruct (text_output : option string) (data : list (string * string)).

Record exec_result := mk_result { r_output : output; r_error : bool }.

(** ** State of the executor

    [heap] holds the dicts reachable from the execution cache (a dict is
    a location in the heap); [exec_cache] is [self.execution_cache];
    [world] the interpreter state.  [eval_log] is ghost: each evaluation
    of a box content, with the node and the dict it ran against. *)
Record state := mk_state {
  heap : list env;
  exec_cache : gmap string nat;
  st_world : world;
  eval_log : list (string * env)
}.

Definition M (A : Type) := state -> res A * state.

Definition ret {A} (a : A) : M A := fun s => (Ok a, s).
Definition raise {A} (e : error) : M A := fun s => (Raise e, s).
Definition py_raise {A} (e : exc) : M A := fun s => (PyRaise e, s).
Definition bind {A B} (m : M A) (k : A -> M B) : M B :=
  fun s => match m s with
           | (Ok a, s') => k a s'
           | (Raise e, s') => (Raise e, s')
           | (PyRaise e, s') => (PyRaise e, s')
           end.

Notation "'let*' x ':=' m 'in' k" := (bind m (fun x => k))
  (at level 200, x name, m at level 100, k at level 200).

Definition get_state : M state := fun s => (Ok s, s).

(** A call into Python objects, in the current interpreter state. *)
Definition call {A} (f : world -> call_out world exc A) : M A :=
  fun s => let o := f (st_world s) in
    (match cl_ret o with inl e => PyRaise e | inr a => Ok a end,
     mk_state (heap s) (exec_cache s) (cl_world o) (eval_log s)).

(** [try: m except Exception as e: h(e)]: the resolver's [ValueError]s
    and [RecursionError] are caught, and so is a Python exception that is
    an [Exception]; [SystemExit] and the like go through. *)
Definition try_except {A} (m : M A) (h : error + exc -> M A) : M A :=
  fun s => match m s with
           | (Ok a, s') => (Ok a, s')
           | (Raise e, s') => h (inl e) s'
           | (PyRaise e, s') => if is_exception e then h (inr e) s' else (PyRaise e, s')
           end.

(** [f"{type(e).__name__}: {str(e)}"]; [str(e)] runs the exception's
    [__str__], which may raise. *)
Definition exc_text (e : error + exc) : M string :=
  match e with
  | inl e => ret (error_type e ++ ": " ++ error_message e)
  | inr e => let* m := call (exc_str e) in ret (exc_type_name e ++ ": " ++ m)
  end.

(** The handlers of lines 55-58 and 188-192. *)
Definition error_result (e : error + exc) : M exec_result :=
  let* t := exc_text e in
  ret (mk_result (OText (t ++ "
" ++ format_exc)) true).

(** ** [_execute_code] (lines 194-224) *)

(** What [_execute_code] leaves behind: the dict (mutated in place), the
    interpreter state, the captured streams, the exception it raised (if
    any) and otherwise its return value. *)
Record code_out := mk_code_out {
  co_env : env;
  co_world : world;
  co_stdout : string;
  co_stderr : string;
  co_raised : option exc;
  co_value : val
}.

(** The fallback [exec(code, env)] of line 223, on the dict and streams
    as they are at that point. *)
Definition exec_plain (c : code) (g : env) (w : world) (out err : string) : code_out :=
  let r := exec_py c g w in
  mk_code_out (eo_env r) (eo_world r) (out ++ eo_stdout r) (err ++ eo_stderr r)
    (eo_exc r) vnone.

Definition execute_code (c : code) (g : env) (w : world) : code_out :=
  (* env['_last_expr_result'] = None *)
  let g1 := <[last_expr_key := vnone]> g in
  match rewrite_last c with
  | Some mc =>
      let r := exec_py mc g1 w in
      match eo_exc r with
      | None =>
          (* return env.get('_last_expr_result') *)
          mk_code_out (eo_env r) (eo_world r) (eo_stdout r) (eo_stderr r) None
            (default vnone (eo_env r !! last_expr_key))
      | Some _ =>
          (* the bare except swallows any exception, [SystemExit] too; the
             code runs again, unmodified, on the dict the failed run left *)
          exec_plain c (eo_env r) (eo_world r) (eo_stdout r) (eo_stderr r)
      end
  | None => exec_plain c g1 w "" ""
  end.

(** ** Heap, cache and ghost log *)

(** [env.copy()]: a fresh dict in the heap. *)
Definition alloc (g : env) : M nat :=
  fun s => (Ok (length (heap s)),
            mk_state (heap s ++ [g])%list (exec_cache s) (st_world s) (eval_log s)).

Definition read_env (l : nat) : M env :=
  fun s => (Ok (default ∅ (heap s !! l)), s).

Definition set_world (w : world) : M unit :=
  fun s => (Ok tt, mk_state (heap s) (exec_cache s) w (eval_log s)).

Definition cache_insert (n : string) (l : nat) : M unit :=
  fun s => (Ok tt, mk_state (heap s) (<[n := l]> (exec_cache s)) (st_world s) (eval_log s)).

Definition log_eval (n : string) (g : env) : M unit :=
  fun s => (Ok tt, mk_state (heap s) (exec_cache s) (st_world s) (eval_log s ++ [(n, g)])%list).

(** [reset_cache]: a new, empty cache.  The dicts of the previous cache
    are unreachable from then on, so the heap restarts empty; the ghost
    log restarts too. *)
Definition reset_cache : M unit :=
  fun s => (Ok tt, mk_state [] ∅ (st_world s) []).

(** ** [_execute_single_box] (lines 111-120) *)

(** The code runs on [g].  When it raised an [Exception], the warning
    [print(f"Warning: Box execution failed: {str(e)}")] is printed (to the
    server's stdout) and a copy of the dict as the failed run left it is
    returned, as on success; an exception that is not an [Exception]
    ([SystemExit]), or one raised by [str(e)], leaves the method. *)
Definition execute_single_box (c : code) (g : env) : M nat :=
  fun s =>
    let r := execute_code c g (st_world s) in
    let s1 := mk_state (heap s) (exec_cache s) (co_world r) (eval_log s) in
    match co_raised r with
    | None => alloc (co_env r) s1
    | Some e =>
        if is_exception e then
          (let* _ := call (exc_str e) in alloc (co_env r)) s1
        else (PyRaise e, s1)
    end.

(** ** [_execute_dag_node] (lines 60-109) *)

(** [graph.get(node_id, [])] *)
Definition parents_of (graph : gmap string (list string)) (n : string) : list string :=
  default [] (graph !! n).

(** The loop of lines 94-98: each parent in order is resolved with its own
    copy of [visited], and its dict is copied into [merged_env] with
    [dict.update], so a later parent overwrites an earlier one. *)
Fixpoint merge_parents (resolve : string -> M nat) (ps : list string) (merged : env)
    : M env :=
  match ps with
  | [] => ret merged
  | p :: ps' =>
      let* l := resolve p in
      let* pe := read_env l in
      merge_parents resolve ps' (pe ∪ merged)
  end.

Fixpoint dag_node (fuel : nat) (graph : gmap string (list string))
    (lookup : gmap string box) (visited : gset string) (n : string) : M nat :=
  match fuel with
  | 0 => raise ErrFuel
  | S fuel' => fun s =>
    match exec_cache s !! n with
    | Some l => (Ok l, s)
    | None =>
      if decide (n ∈ visited) then (Raise (ErrCycle n), s) else
      let visited' := {[n]} ∪ visited in
      match lookup !! n with
      | None => (Raise (ErrNotFound n), s)
      | Some b =>
        match parents_of graph n with
        | [] =>
          (let* _ := log_eval n ∅ in
           let* l := execute_single_box (content b) ∅ in
           let* _ := cache_insert n l in
           ret l) s
        | ps =>
          (let* merged := merge_parents (dag_node fuel' graph lookup visited') ps ∅ in
           let* _ := log_eval n merged in
           let* l := execute_single_box (content b) merged in
           let* _ := cache_insert n l in
           ret l) s
        end
      end
    end
  end.

(** ** [_execute_box_code] (lines 122-192) *)

(** Lines 131-186, run inside the [try]: the calls [savefig], [hasattr],
    [_repr_html_()] and [str(last_expr)] may raise. *)
Definition format_value (stdout stderr : string) (last : val) : M exec_result :=
  let text_output := stdout ++ (if decide (stderr = "") then "" else "
Error: " ++ stderr) in
  let text_opt := if decide (text_output = "") then None else Some (strip text_output) in
  if is_figure last then
    let* png := call (savefig_png last) in
    ret (mk_result (OStruct text_opt [("image/png", png)]) false)
  else
    let* html_attr := call (has_html last) in
    if html_attr then
      let* html := call (repr_html last) in
      let* plain := call (py_str last) in
      ret (mk_result (OStruct text_opt [("text/html", html); ("text/plain", plain)]) false)
    else if is_none last then ret (mk_result (OText (strip text_output)) false)
    else
      let* plain := call (py_str last) in
      ret (mk_result (OStruct text_opt [("text/plain", plain)]) false).

(** The code runs on the dict at location [l] itself, which it mutates. *)
Definition execute_box_code (c : code) (l : nat) : M exec_result :=
  fun s =>
    let g := default ∅ (heap s !! l) in
    let r := execute_code c g (st_world s) in
    let s1 := mk_state (<[l := co_env r]> (heap s)) (exec_cache s) (co_world r) (eval_log s) in
    try_except
      (match co_raised r with
       | Some e => py_raise e
       | None => format_value (co_stdout r) (co_stderr r) (co_value r)
       end)
      error_result s1.

(** ** [execute_with_dependencies] (lines 26-58) *)

Definition build_graph (boxes : list box) (arrows : list arrow) : gmap string (list string) :=
  foldl (fun (g : gmap string (list string)) a => match g !! arrow_end a with
                    | Some ps => <[arrow_end a := (ps ++ [arrow_start a])%list]> g
                    | None => g
                    end)
        (foldl (fun (g : gmap string (list string)) b => <[box_id b := []]> g) ∅ boxes) arrows.

Definition box_lookup (boxes : list box) : gmap string box :=
  foldl (fun (m : gmap string box) b => <[box_id b := b]> m) ∅ boxes.

(** [next((box for box in boxes if box['id'] == box_id), None)] *)
Definition find_box (boxes : list box) (bid : string) : option box :=
  List.find (fun b => bool_decide (box_id b = bid)) boxes.

(** The answer of the handler of lines 55-58 for a resolver error. *)
Definition structural_error (e : error) : exec_result :=
  mk_result (OText ((error_type e ++ ": " ++ error_message e) ++ "
" ++ format_exc)) true.

(** Lines 40-58, once the adjacency [graph] is built. *)
Definition execute_from_graph (bid : string) (boxes : list box)
    (graph : gmap string (list string)) : M exec_result :=
  match find_box boxes bid with
  | None => ret (mk_result (OText ("Box with ID " ++ bid ++ " not found")) true)
  | Some target =>
      let lookup := box_lookup boxes in
      try_except
        (let* l := dag_node (S (size lookup)) graph lookup ∅ bid in
         let* g := read_env l in
         let* _ := log_eval bid g in
         execute_box_code (content target) l)
        error_result
  end.

(** The request's [code] argument is not read. *)
Definition execute_with_dependencies (bid : string) (code_arg : code)
    (boxes : list box) (arrows : list arrow) : M exec_result :=
  let* _ := reset_cache in
  let graph := build_graph boxes arrows in
  execute_from_graph bid boxes graph.

End Executor.

Arguments Ok {I A} a.
Arguments Raise {I A} e.
Arguments PyRaise {I A} e.

(** ** Specification-side notions *)

Section Spec.
Context `{I : Interp}.

(** "Last dependency listed wins": the binding of [x] in the last
    environment of the list that binds it. *)
Fixpoint last_listed_wins (envs : list env) (x : string) : option val :=
  match envs with
  | [] => None
  | e :: es =>
      match last_listed_wins es x with
      | Some v => Some v
      | None => e !! x
      end
  end.

(** [p] is a direct parent (dependency) of [m] in the adjacency. *)
Definition parent_edge (graph : gmap string (list string)) (m p : string) : Prop :=
  p ∈ parents_of graph m.

(** The dict the cache holds for [p], [∅] when [p] is not cached. *)
Definition resolved_env (s : state) (p : string) : env :=
  match exec_cache s !! p with
  | Some l => default ∅ (heap s !! l)
  | None => ∅
  end.

(** The state a fresh request starts from. *)
Definition fresh_state (w : world) : state := mk_state [] ∅ w [].

(** Whether [_execute_single_box] leaves with an exception for the code
    [c] on the dict [g] in the interpreter state [w]: the code raised an
    exception that is not an [Exception], or [str()] of the one it raised
    itself raised. *)
Definition single_box_escapes (c : code) (g : env) (w : world) : bool :=
  let r := execute_code c g w in
  match co_raised r with
  | None => false
  | Some e =>
      negb (is_exception e) ||
      match cl_ret (exc_str e (co_world r)) with inl _ => true | inr _ => false end
  end.

(** No box reachable from [t] leaves [_execute_single_box] with an
    exception, whatever dict and interpreter state it runs in. *)
Definition never_escapes (graph : gmap string (list string)) (lookup : gmap string box)
    (t : string) : Prop :=
  ∀ m b g w, rtc (parent_edge graph) t m → lookup !! m = Some b →
    single_box_escapes (content b) g w = false.

End Spec.

(** ** A small Python subset, for concrete inputs

    Straight-line code over integers and [None]: assignments, [del],
    expression statements and attributes of the shared [sys] module
    ([sys.a = e], [getattr(sys, 'a', d)]), which outlive a request, and
    [exit()], which raises [SystemExit].  [exec]
    runs the statements in order and stops at the first exception, leaving
    the dict as it is at that point.  One statement per line, so the AST
    rewrite of [_execute_code] is the replacement of a final expression
    statement [e] by [_last_expr_result = e]. *)
Module Toy.

Inductive pyval := VNone | VInt (z : Z).

Inductive expr :=
| EInt (z : Z)
| EVar (x : string)
| EAdd (a b : expr)
| ESub (a b : expr)
| EFloorDiv (a b : expr)
| ESysGetattr (attr : string) (dflt : expr)
| EExit.

Inductive stmt :=
| SAssign (x : string) (e : expr)
| SDel (x : string)
| SExpr (e : expr)
| SSysSetattr (attr : string) (e : expr).

Inductive pyexc := NameError (x : string) | ZeroDivisionError | TypeError | SystemExit.

Definition sys_attrs := gmap string pyval.

Fixpoint eval_expr (g : gmap string pyval) (w : sys_attrs) (e : expr) : pyexc + pyval :=
  let arith (f : Z -> Z -> pyexc + pyval) a b :=
    match eval_expr g w a, eval_expr g w b with
    | inr (VInt x), inr (VInt y) => f x y
    | inl ex, _ => inl ex
    | _, inl ex => inl ex
    | _, _ => inl TypeError
    end in
  match e with
  | EInt z => inr (VInt z)
  | EVar x => match g !! x with Some v => inr v | None => inl (NameError x) end
  | EAdd a b => arith (fun x y => inr (VInt (x + y))) a b
  | ESub a b => arith (fun x y => inr (VInt (x - y))) a b
  | EFloorDiv a b => arith (fun x y => if decide (y = 0%Z) then inl ZeroDivisionError
                                       else inr (VInt (x / y))) a b
  | ESysGetattr a d => match w !! a with Some v => inr v | None => eval_expr g w d end
  | EExit => inl SystemExit
  end.

Fixpoint exec_stmts (c : list stmt) (g : gmap string pyval) (w : sys_attrs)
    : exec_out pyval sys_attrs pyexc :=
  match c with
  | [] => mk_exec_out g w "" "" None
  | st :: rest =>
      match st with
      | SAssign x e =>
          match eval_expr g w e with
          | inr v => exec_stmts rest (<[x := v]> g) w
          | inl ex => mk_exec_out g w "" "" (Some ex)
          end
      | SDel x =>
          match g !! x with
          | Some _ => exec_stmts rest (delete x g) w
          | None => mk_exec_out g w "" "" (Some (NameError x))
          end
      | SExpr e =>
          match eval_expr g w e with
          | inr _ => exec_stmts rest g w
          | inl ex => mk_exec_out g w "" "" (Some ex)
          end
      | SSysSetattr a e =>
          match eval_expr g w e with
          | inr v => exec_stmts rest g (<[a := v]> w)
          | inl ex => mk_exec_out g w "" "" (Some ex)
          end
      end
  end.

Definition rewrite_last_expr (c : list stmt) : option (list stmt) :=
  match reverse c with
  | SExpr e :: init => Some (reverse init ++ [SAssign last_expr_key e])%list
  | _ => None
  end.

Definition show_val (v : pyval) : string :=
  match v with VNone => "None" | VInt z => pretty z end.

Definition exc_name (e : pyexc) : string :=
  match e with
  | NameError _ => "NameError"
  | ZeroDivisionError => "ZeroDivisionError"
  | TypeError => "TypeError"
  | SystemExit => "SystemExit"
  end.

Definition exc_message (e : pyexc) : string :=
  match e with
  | NameError x => "name '" ++ x ++ "' is not defined"
  | ZeroDivisionError => "integer division or modulo by zero"
  | TypeError => "unsupported operand type(s)"
  | SystemExit => ""
  end.

Definition is_space (a : Ascii.ascii) : bool :=
  match a with
  | " "%char | "009"%char | "010"%char | "011"%char | "012"%char | "013"%char => true
  | _ => false
  end.

Fixpoint lstrip (s : string) : string :=
  match s with
  | EmptyString => EmptyString
  | String a s' => if is_space a then lstrip s' else s
  end.

Fixpoint rev_str (s : string) (acc : string) : string :=
  match s with
  | EmptyString => acc
  | String a s' => rev_str s' (String a acc)
  end.

Definition py_strip (s : string) : string :=
  rev_str (lstrip (rev_str (lstrip s) "")) "".

#[export] Instance toy_interp : Interp := {
  val := pyval;
  vnone := VNone;
  code := list stmt;
  exc := pyexc;
  world := sys_attrs;
  exec_py := exec_stmts;
  rewrite_last := rewrite_last_expr;
  is_exception := fun e => match e with SystemExit => false | _ => true end;
  is_figure := fun _ => false;
  has_html := fun _ w => mk_call_out w (inr false);
  savefig_png := fun _ w => mk_call_out w (inr "");
  repr_html := fun _ w => mk_call_out w (inr "");
  is_none := fun v => match v with VNone => true | _ => false end;
  py_str := fun v w => mk_call_out w (inr (show_val v));
  exc_type_name := exc_name;
  exc_str := fun e w => mk_call_out w (inr (exc_message e));
  format_exc := "Traceback (most recent call last): ...";
  strip := py_strip
}.

Definition init_state : state := mk_state [] ∅ ∅ [].

(** Code that never calls [exit()]. *)
Fixpoint expr_no_exit (e : expr) : bool :=
  match e with
  | EInt _ | EVar _ => true
  | EAdd a b | ESub a b | EFloorDiv a b => expr_no_exit a && expr_no_exit b
  | ESysGetattr _ d => expr_no_exit d
  | EExit => false
  end.

Definition no_exit (c : list stmt) : bool :=
  forallb (fun st => match st with
                     | SAssign _ e | SExpr e | SSysSetattr _ e => expr_no_exit e
                     | SDel _ => true
                     end) c.

Lemma eval_expr_no_exit g w e : expr_no_exit e = true → eval_expr g w e ≠ inl SystemExit.
Proof.
  induction e as [z|x|a IHa b IHb|a IHa b IHb|a IHa b IHb|aa d IHd|]; simpl; intros H.
  - discriminate.
  - by destruct (g !! x).
  - apply andb_true_iff in H as [Ha Hb]. specialize (IHa Ha). specialize (IHb Hb).
    destruct (eval_expr g w a) as [ea|[|x]], (eval_expr g w b) as [eb|[|y]]; congruence.
  - apply andb_true_iff in H as [Ha Hb]. specialize (IHa Ha). specialize (IHb Hb).
    destruct (eval_expr g w a) as [ea|[|x]], (eval_expr g w b) as [eb|[|y]]; congruence.
  - apply andb_true_iff in H as [Ha Hb]. specialize (IHa Ha). specialize (IHb Hb).
    destruct (eval_expr g w a) as [ea|[|x]], (eval_expr g w b) as [eb|[|y]]; try congruence.
    by destruct (decide (y = 0%Z)).
  - destruct (w !! aa); [discriminate|auto].
  - discriminate.
Qed.

Lemma exec_stmts_no_exit c g w : no_exit c = true → eo_exc (exec_stmts c g w) ≠ Some SystemExit.
Proof.
  revert g w. induction c as [|st c IH]; intros g w H; simpl; [discriminate|].
  simpl in H. apply andb_true_iff in H as [Hst Hc].
  destruct st as [x e|x|e|a e]; simpl.
  - pose proof (eval_expr_no_exit g w e Hst).
    destruct (eval_expr g w e) as [ex|v]; [simpl; congruence|auto].
  - destruct (g !! x); [auto|discriminate].
  - pose proof (eval_expr_no_exit g w e Hst).
    destruct (eval_expr g w e) as [ex|v]; [simpl; congruence|auto].
  - pose proof (eval_expr_no_exit g w e Hst).
    destruct (eval_expr g w e) as [ex|v]; [simpl; congruence|auto].
Qed.

(** Code without [exit()] never leaves [_execute_single_box] with an
    exception. *)
Lemma toy_no_escape c : no_exit c = true → ∀ g w, single_box_escapes c g w = false.
Proof.
  intros Hc g w. unfold single_box_escapes, execute_code, exec_plain. simpl.
  assert (Hplain : ∀ g0 w0, match eo_exc (exec_stmts c g0 w0) with
                            | Some e => negb (match e with SystemExit => false | _ => true end) || false
                            | None => false end = false).
  { intros g0 w0. pose proof (exec_stmts_no_exit c g0 w0 Hc).
    destruct (eo_exc (exec_stmts c g0 w0)) as [[]|]; simpl; congruence. }
  destruct (rewrite_last_expr c) as [mc|]; simpl.
  - destruct (eo_exc (exec_stmts mc _ w)); simpl; [|done]. apply Hplain.
  - apply Hplain.
Qed.

End Toy.


(** * Properties of the resolver *)

Section Resolver.
Context `{I : Interp}.
Context (graph : gmap string (list string)) (lookup : gmap string box).

Abbreviation R := (parent_edge graph).

(** Invariant of the executor state during one request. *)
Record Inv (s : state) : Prop := {
  inv_loc : ∀ m l, exec_cache s !! m = Some l → l < length (heap s);
  inv_box : ∀ m l, exec_cache s !! m = Some l → is_Some (lookup !! m);
  inv_parents : ∀ m l p, exec_cache s !! m = Some l → R m p →
    ∃ lp, exec_cache s !! p = Some lp ∧ lp < l;
  inv_log_nodup : NoDup (map fst (eval_log s));
  inv_log_cache : ∀ m, m ∈ map fst (eval_log s) ↔ is_Some (exec_cache s !! m);
  inv_log_input : ∀ n gin, (n, gin) ∈ eval_log s → ∀ x,
    gin !! x = last_listed_wins (map (resolved_env s) (parents_of graph n)) x;
  inv_run : ∀ m lm, exec_cache s !! m = Some lm → ∃ b gin w,
    lookup !! m = Some b ∧ (m, gin) ∈ eval_log s ∧
    heap s !! lm = Some (co_env (execute_code (content b) gin w))
}.

(** The state only grows: the heap and the log by appending, the cache
    by new keys. *)
Record ext (s s' : state) : Prop := {
  ext_heap : ∃ t, heap s' = (heap s ++ t)%list;
  ext_cache : exec_cache s ⊆ exec_cache s';
  ext_log : ∃ t, eval_log s' = (eval_log s ++ t)%list
}.

Definition ok_post (visited : gset string) (n : string) (s : state) (l : nat) (s' : state) : Prop :=
  Inv s' ∧ ext s s' ∧ exec_cache s' !! n = Some l ∧
  (∀ v, v ∈ visited → exec_cache s !! v = None → exec_cache s' !! v = None) ∧
  (∀ m, is_Some (exec_cache s' !! m) → is_Some (exec_cache s !! m) ∨ rtc R n m).

Lemma ext_refl s : ext s s.
Proof. split; [exists []; by rewrite app_nil_r | done | exists []; by rewrite app_nil_r]. Qed.

Lemma ext_trans s1 s2 s3 : ext s1 s2 → ext s2 s3 → ext s1 s3.
Proof.
  intros [[t1 H1] C1 [u1 L1]] [[t2 H2] C2 [u2 L2]]. split.
  - exists (t1 ++ t2)%list. by rewrite H2, H1, app_assoc.
  - by trans (exec_cache s2).
  - exists (u1 ++ u2)%list. by rewrite L2, L1, app_assoc.
Qed.

Lemma resolved_env_ext s s' p l :
  Inv s → ext s s' → exec_cache s !! p = Some l → resolved_env s' p = resolved_env s p.
Proof.
  intros HI [[t Ht] Hc _] Hp. unfold resolved_env.
  rewrite (lookup_weaken _ _ _ _ Hp Hc), Hp, Ht.
  rewrite lookup_app_l; [done|]. eapply inv_loc; eauto.
Qed.

Lemma inv_fresh w : Inv (fresh_state w).
Proof.
  split; simpl.
  - intros m l H. by rewrite lookup_empty in H.
  - intros m l H. by rewrite lookup_empty in H.
  - intros m l p H. by rewrite lookup_empty in H.
  - constructor.
  - intros m. rewrite lookup_empty. split; [intros H; inversion H | intros [? H]; done].
  - intros n gin H. inversion H.
  - intros m l H. by rewrite lookup_empty in H.
Qed.

(** The interpreter state [_execute_single_box] leaves when it returns. *)
Definition single_world (c : code) (g : env) (w : world) : world :=
  let r := execute_code c g w in
  match co_raised r with
  | Some e => cl_world (exc_str e (co_world r))
  | None => co_world r
  end.

(** What is left after [_execute_single_box] has run on [merged] and the
    copy has been cached under [n]. *)
Definition finish (s : state) (n : string) (merged : env) (c : code) : state :=
  let r := execute_code c merged (st_world s) in
  mk_state (heap s ++ [co_env r])%list (<[n := length (heap s)]> (exec_cache s))
    (single_world c merged (st_world s)) (eval_log s ++ [(n, merged)])%list.

Definition eval_step (n : string) (merged : env) (c : code) : M nat :=
  bind (log_eval n merged) (fun _ =>
  bind (execute_single_box c merged) (fun l =>
  bind (cache_insert n l) (fun _ => ret l))).

Lemma finish_step s n merged c :
  single_box_escapes c merged (st_world s) = false →
  eval_step n merged c s = (Ok (length (heap s)), finish s n merged c).
Proof.
  unfold eval_step, single_box_escapes, finish, single_world, bind, log_eval,
    execute_single_box, call, alloc, cache_insert, ret. simpl.
  destruct (co_raised (execute_code c merged (st_world s))) as [e|]; [|done].
  destruct (is_exception e); simpl; [|discriminate].
  unfold bind; simpl. destruct (cl_ret _); simpl; [discriminate|done].
Qed.

Lemma eval_step_ok s n merged c l s' :
  eval_step n merged c s = (Ok l, s') →
  single_box_escapes c merged (st_world s) = false ∧ l = length (heap s) ∧
  s' = finish s n merged c.
Proof.
  destruct (single_box_escapes c merged (st_world s)) eqn:He.
  - unfold eval_step, single_box_escapes, bind, log_eval, execute_single_box, call in *. simpl in *.
    destruct (co_raised (execute_code c merged (st_world s))) as [e|]; [|discriminate].
    destruct (is_exception e); simpl in *; [|discriminate].
    unfold bind in *; simpl in *. destruct (cl_ret _); [discriminate|]. simpl in He. discriminate.
  - rewrite (finish_step _ _ _ _ He). intros H. by injection H as <- <-.
Qed.

Lemma eval_step_raise s n merged c e s' :
  eval_step n merged c s = (Raise e, s') → False.
Proof.
  unfold eval_step, bind, log_eval, execute_single_box, call, alloc, cache_insert, ret. simpl.
  destruct (co_raised (execute_code c merged (st_world s))) as [e'|]; [|discriminate].
  destruct (is_exception e'); simpl; [|discriminate].
  unfold bind; simpl. by destruct (cl_ret _).
Qed.

Lemma eval_step_pyraise s n merged c e s' :
  eval_step n merged c s = (PyRaise e, s') → single_box_escapes c merged (st_world s) = true.
Proof.
  intros H. destruct (single_box_escapes c merged (st_world s)) eqn:He; [done|].
  by rewrite finish_step in H.
Qed.

Lemma finish_inv s n b merged :
  Inv s → exec_cache s !! n = None → lookup !! n = Some b →
  (∀ p, R n p → is_Some (exec_cache s !! p)) →
  (∀ x, merged !! x = last_listed_wins (map (resolved_env s) (parents_of graph n)) x) →
  Inv (finish s n merged (content b)) ∧ ext s (finish s n merged (content b)).
Proof.
  intros HI Hn Hb Hpar Hmerged.
  set (s' := finish s n merged (content b)).
  assert (Hext : ext s s').
  { split; simpl.
    - eexists. done.
    - by apply insert_subseteq.
    - eexists. done. }
  assert (Hstable : ∀ p, is_Some (exec_cache s !! p) → resolved_env s' p = resolved_env s p).
  { intros p [lp Hp]. by eapply resolved_env_ext. }
  split; [|done]. split; simpl.
  - intros m l Hm. rewrite length_app; simpl.
    destruct (decide (m = n)) as [->|Hne].
    + rewrite lookup_insert_eq in Hm. injection Hm as <-. lia.
    + rewrite lookup_insert_ne in Hm by congruence. pose proof (inv_loc _ HI _ _ Hm). lia.
  - intros m l Hm. destruct (decide (m = n)) as [->|Hne]; [by eexists|].
    rewrite lookup_insert_ne in Hm by congruence. eapply inv_box; eauto.
  - intros m l p Hm Hmp. destruct (decide (m = n)) as [->|Hne].
    + rewrite lookup_insert_eq in Hm. injection Hm as <-.
      destruct (Hpar p Hmp) as [lp Hp].
      assert (p ≠ n) by congruence.
      exists lp. rewrite lookup_insert_ne by congruence. split; [done|].
      eapply inv_loc; eauto.
    + rewrite lookup_insert_ne in Hm by congruence.
      destruct (inv_parents _ HI _ _ _ Hm Hmp) as [lp [Hp Hlt]].
      exists lp. split; [|done].
      rewrite lookup_insert_ne; [done|]. congruence.
  - rewrite map_app. simpl. apply NoDup_app. split; [apply HI|]. split; [|apply NoDup_singleton].
    intros m Hm Hm'. apply list_elem_of_singleton in Hm'. subst m.
    apply (inv_log_cache _ HI) in Hm. rewrite Hn in Hm. by destruct Hm.
  - intros m. rewrite map_app. simpl. rewrite elem_of_app, list_elem_of_singleton.
    rewrite (inv_log_cache _ HI).
    destruct (decide (m = n)) as [->|Hne].
    + rewrite lookup_insert_eq. split; [by eexists|by right].
    + rewrite lookup_insert_ne by congruence. naive_solver.
  - intros m gin Hin x. apply elem_of_app in Hin as [Hin|Hin].
    + rewrite (inv_log_input _ HI _ _ Hin x). f_equal.
      apply list_fmap_ext. intros i p Hi. symmetry. apply Hstable.
      apply (list_elem_of_fmap_2 fst) in Hin. simpl in Hin.
      destruct (proj1 (inv_log_cache _ HI m) Hin) as [lm Hlm].
      assert (Hmp : R m p) by (unfold parent_edge; eapply list_elem_of_lookup_2; eauto).
      destruct (inv_parents _ HI _ _ p Hlm Hmp) as [lp [Hp _]].
      by eexists.
    + apply list_elem_of_singleton in Hin. injection Hin as -> ->.
      rewrite Hmerged. f_equal. apply list_fmap_ext. intros i p Hi. symmetry. apply Hstable.
      apply Hpar. unfold parent_edge. eapply list_elem_of_lookup_2; eauto.
  - intros m lm Hm. destruct (decide (m = n)) as [->|Hne].
    + rewrite lookup_insert_eq in Hm. injection Hm as <-.
      exists b, merged, (st_world s). split_and!; [done| |].
      * apply elem_of_app. right. by apply list_elem_of_singleton.
      * rewrite lookup_app_r by lia. by rewrite Nat.sub_diag.
    + rewrite lookup_insert_ne in Hm by congruence.
      destruct (inv_run _ HI _ _ Hm) as (b' & gin & w & Hb' & Hin & Hh).
      exists b', gin, w. split_and!; [done| |].
      * apply elem_of_app. by left.
      * rewrite lookup_app_l; [done|]. eapply inv_loc; eauto.
Qed.

Definition or_else (o1 o2 : option val) : option val :=
  match o1 with Some v => Some v | None => o2 end.

Lemma merge_parents_ok (resolve : string → M nat) (visited : gset string) ps :
  (∀ p s l s', p ∈ ps → Inv s → resolve p s = (Ok l, s') → ok_post visited p s l s') →
  ∀ acc s merged s', Inv s → merge_parents resolve ps acc s = (Ok merged, s') →
  Inv s' ∧ ext s s' ∧ (∀ p, p ∈ ps → is_Some (exec_cache s' !! p)) ∧
  (∀ v, v ∈ visited → exec_cache s !! v = None → exec_cache s' !! v = None) ∧
  (∀ m, is_Some (exec_cache s' !! m) → is_Some (exec_cache s !! m) ∨ ∃ p, p ∈ ps ∧ rtc R p m) ∧
  (∀ x, merged !! x = or_else (last_listed_wins (map (resolved_env s') ps) x) (acc !! x)).
Proof.
  intros Hres. induction ps as [|p ps IHps]; intros acc s merged s' HI H; simpl in H.
  - injection H as <- <-. split_and!.
    + done.
    + apply ext_refl.
    + intros p Hp. inversion Hp.
    + auto.
    + intros m Hm. by left.
    + done.
  - unfold bind at 1 in H.
    destruct (resolve p s) as [[l|e|e] s1] eqn:Hp; [|discriminate|discriminate]. simpl in H.
    destruct (Hres p s l s1 ltac:(left) HI Hp) as (HI1 & Hext1 & Hc1 & Hvis1 & Hnew1).
    destruct (IHps ltac:(intros; apply Hres; [by right|done..]) _ _ _ _ HI1 H)
      as (HI' & Hext' & Hall & Hvis' & Hnew' & Hmerged).
    split_and!.
    + done.
    + by eapply ext_trans.
    + intros q Hq. apply elem_of_cons in Hq as [->|Hq]; [|by apply Hall].
      eexists. eapply lookup_weaken; [done|apply Hext'].
    + intros v Hv Hs. by apply Hvis', Hvis1.
    + intros m Hm. destruct (Hnew' m Hm) as [Hm1|[q [Hq Hqm]]].
      * destruct (Hnew1 m Hm1) as [Hm0|Hpm]; [by left|right; exists p; split; [left|done]].
      * right. exists q. split; [by right|done].
    + intros x. rewrite Hmerged. simpl.
      assert (Hpe : resolved_env s' p = default ∅ (heap s1 !! l)).
      { rewrite (resolved_env_ext s1 s' p l HI1 Hext' Hc1). unfold resolved_env. by rewrite Hc1. }
      rewrite Hpe. destruct (last_listed_wins (map (resolved_env s') ps) x) as [v|]; [done|].
      simpl. rewrite lookup_union. by destruct (default ∅ (heap s1 !! l) !! x), (acc !! x).
Qed.

Lemma dag_node_ok fuel : ∀ visited n s l s', Inv s →
  dag_node fuel graph lookup visited n s = (Ok l, s') → ok_post visited n s l s'.
Proof.
  induction fuel as [|f IH]; intros V n s l s' HI H; cbn [dag_node] in H; [discriminate|].
  destruct (exec_cache s !! n) as [l0|] eqn:Hc.
  { injection H as <- <-. unfold ok_post. split_and!; auto using ext_refl. }
  destruct (decide (n ∈ V)) as [|HnV]; [discriminate|].
  destruct (lookup !! n) as [b|] eqn:Hb; [|discriminate].
  destruct (parents_of graph n) as [|p ps] eqn:Hps.
  - apply (eval_step_ok s n ∅ (content b)) in H as (_ & -> & ->).
    destruct (finish_inv s n b ∅ HI Hc Hb) as [HI' Hext].
    { intros p Hp. unfold parent_edge in Hp. rewrite Hps in Hp. inversion Hp. }
    { intros x. rewrite Hps. simpl. apply lookup_empty. }
    split_and!; [done|done| |..].
    + simpl. apply lookup_insert_eq.
    + intros v Hv Hsv. simpl. rewrite lookup_insert_ne; [done|]. set_solver.
    + intros m Hm. simpl in Hm. destruct (decide (m = n)) as [->|Hne].
      * right. apply rtc_refl.
      * left. by rewrite lookup_insert_ne in Hm.
  - unfold bind at 1 in H.
    destruct (merge_parents (dag_node f graph lookup ({[n]} ∪ V)) (p :: ps) ∅ s)
      as [[merged|e|e] s1] eqn:Hm; [|discriminate|discriminate].
    apply (eval_step_ok s1 n merged (content b)) in H as (_ & -> & ->).
    destruct (merge_parents_ok _ ({[n]} ∪ V) (p :: ps)
                (fun q s0 l0 s0' _ HI0 H0 => IH _ _ _ _ _ HI0 H0) _ _ _ _ HI Hm)
      as (HI1 & Hext1 & Hall & Hvis1 & Hnew1 & Hmerged).
    assert (Hn1 : exec_cache s1 !! n = None) by (apply Hvis1; [set_solver|done]).
    destruct (finish_inv s1 n b merged HI1 Hn1 Hb) as [HI' Hext].
    { intros q Hq. unfold parent_edge in Hq. rewrite Hps in Hq. by apply Hall. }
    { intros x. rewrite Hmerged, Hps, lookup_empty. unfold or_else. by case_match. }
    split_and!; [done|by eapply ext_trans| |..].
    + simpl. apply lookup_insert_eq.
    + intros v Hv Hsv. simpl. rewrite lookup_insert_ne; [|set_solver].
      apply Hvis1; [set_solver|done].
    + intros m Hm'. simpl in Hm'. destruct (decide (m = n)) as [->|Hne].
      * right. apply rtc_refl.
      * rewrite lookup_insert_ne in Hm' by done.
        destruct (Hnew1 m Hm') as [?|[q [Hq Hqm]]]; [by left|].
        right. eapply rtc_l; [|done]. unfold parent_edge. by rewrite Hps.
Qed.

(** A failed merge failed in the resolution of one of the parents. *)
Lemma merge_parents_fail (resolve : string → M nat) ps :
  ∀ acc s r s', merge_parents resolve ps acc s = (r, s') →
  match r with
  | Ok _ => True
  | Raise e => ∃ p s0 s0', p ∈ ps ∧ resolve p s0 = (Raise e, s0')
  | PyRaise e => ∃ p s0 s0', p ∈ ps ∧ resolve p s0 = (PyRaise e, s0')
  end.
Proof.
  induction ps as [|p ps IHps]; intros acc s r s' H; simpl in H.
  { by injection H as <- _. }
  unfold bind at 1 in H.
  destruct (resolve p s) as [[l|e'|e'] s1] eqn:Hp.
  - simpl in H. pose proof (IHps _ _ _ _ H) as Hr.
    destruct r as [|e|e]; [done| |];
      destruct Hr as (q & s0 & s0' & Hq & Hq'); exists q, s0, s0'; (split; [by right|done]).
  - injection H as <- _. exists p, s, s1. split; [left|done].
  - injection H as <- _. exists p, s, s1. split; [left|done].
Qed.

(** What a structural error raised while resolving from [top] says. *)
Definition err_ok (top : string) (e : error) : Prop :=
  match e with
  | ErrCycle v => rtc R top v ∧ tc R v v
  | ErrNotFound m => rtc R top m ∧ lookup !! m = None
  | ErrFuel => False
  end.

Lemma dag_node_err (top : string) fuel : ∀ visited n s e s',
  size (dom lookup ∖ visited) < fuel →
  rtc R top n → (∀ v, v ∈ visited → rtc R top v ∧ tc R v n) →
  dag_node fuel graph lookup visited n s = (Raise e, s') → err_ok top e.
Proof.
  induction fuel as [|f IH]; intros V n s e s' Hfuel Htop Hpath H; [lia|].
  cbn [dag_node] in H.
  destruct (exec_cache s !! n) as [l0|] eqn:Hc; [discriminate|].
  destruct (decide (n ∈ V)) as [HnV|HnV].
  { injection H as <- _. simpl. split; [done|]. by apply Hpath. }
  destruct (lookup !! n) as [b|] eqn:Hb; [|injection H as <- _; by split].
  destruct (parents_of graph n) as [|p ps] eqn:Hps.
  { exfalso. by apply (eval_step_raise s n ∅ (content b) e s'). }
  unfold bind at 1 in H.
  destruct (merge_parents (dag_node f graph lookup ({[n]} ∪ V)) (p :: ps) ∅ s)
    as [[merged|e'|e'] s1] eqn:Hm.
  { exfalso. by apply (eval_step_raise s1 n merged (content b) e s'). }
  2: { discriminate. }
  injection H as -> _.
  destruct (merge_parents_fail _ _ _ _ _ _ Hm) as (q & s0 & s0' & Hq & Hq').
  assert (Hnq : R n q) by (unfold parent_edge; by rewrite Hps).
  assert (Hndom : n ∈ dom lookup) by (by eapply elem_of_dom_2).
  eapply (IH ({[n]} ∪ V) q s0 e s0'); [|by eapply rtc_r| |done].
  - assert (size (dom lookup ∖ ({[n]} ∪ V)) < size (dom lookup ∖ V)); [|lia].
    apply subset_size. set_solver.
  - intros v Hv. apply elem_of_union in Hv as [Hv|Hv].
    + apply elem_of_singleton in Hv as ->. split; [done|by apply tc_once].
    + destruct (Hpath v Hv) as [Hv1 Hv2]. split; [done|by eapply tc_r].
Qed.

(** An exception of Python code leaving the resolver came out of
    [_execute_single_box] for a box reachable from [top]. *)
Lemma dag_node_escape (top : string) fuel : ∀ visited n s e s',
  rtc R top n →
  dag_node fuel graph lookup visited n s = (PyRaise e, s') →
  ∃ m b g w, rtc R top m ∧ lookup !! m = Some b ∧ single_box_escapes (content b) g w = true.
Proof.
  induction fuel as [|f IH]; intros V n s e s' Htop H; cbn [dag_node] in H; [discriminate|].
  destruct (exec_cache s !! n) as [l0|] eqn:Hc; [discriminate|].
  destruct (decide (n ∈ V)) as [HnV|HnV]; [discriminate|].
  destruct (lookup !! n) as [b|] eqn:Hb; [|discriminate].
  destruct (parents_of graph n) as [|p ps] eqn:Hps.
  { apply eval_step_pyraise in H. by exists n, b, ∅, (st_world s). }
  unfold bind at 1 in H.
  destruct (merge_parents (dag_node f graph lookup ({[n]} ∪ V)) (p :: ps) ∅ s)
    as [[merged|e'|e'] s1] eqn:Hm.
  { apply eval_step_pyraise in H. by exists n, b, merged, (st_world s1). }
  { discriminate. }
  injection H as -> _.
  destruct (merge_parents_fail _ _ _ _ _ _ Hm) as (q & s0 & s0' & Hq & Hq').
  assert (Hnq : R n q) by (unfold parent_edge; by rewrite Hps).
  eapply (IH ({[n]} ∪ V) q s0 e s0'); [by eapply rtc_r|done].
Qed.

Lemma cached_parents_closed s m p :
  Inv s → is_Some (exec_cache s !! m) → rtc R m p → is_Some (exec_cache s !! p).
Proof.
  intros HI Hm Hmp. induction Hmp as [m|m y p Hmy Hyp IHp]; [done|].
  apply IHp. destruct Hm as [lm Hm].
  destruct (inv_parents _ HI _ _ _ Hm Hmy) as [ly [Hy _]]. by eexists.
Qed.

Lemma cached_tc_lt s m p lm :
  Inv s → exec_cache s !! m = Some lm → tc R m p →
  ∃ lp, exec_cache s !! p = Some lp ∧ lp < lm.
Proof.
  intros HI Hm Hmp. revert lm Hm.
  induction Hmp as [m p Hmp|m y p Hmy Hyp IHp]; intros lm Hm.
  - by eapply inv_parents.
  - destruct (inv_parents _ HI _ _ _ Hm Hmy) as [ly [Hy Hlt]].
    destruct (IHp ly Hy) as [lp [Hp Hlt']]. exists lp. split; [done|lia].
Qed.

Lemma cached_not_cyclic s m :
  Inv s → is_Some (exec_cache s !! m) → ¬ tc R m m.
Proof.
  intros HI [lm Hm] Hmm. destruct (cached_tc_lt s m m lm HI Hm Hmm) as [lp [Hp Hlt]].
  rewrite Hm in Hp. injection Hp as ->. lia.
Qed.

(** Resolution from a fresh request never runs out of fuel, and fails only
    with a structural error found on the way: a node of a cycle reachable
    from the target, or a missing node reachable from the target. *)
Lemma dag_node_fuel_enough t s e s' :
  dag_node (S (size lookup)) graph lookup ∅ t s = (Raise e, s') → err_ok t e.
Proof.
  intros H. eapply (dag_node_err t _ ∅ t s e s'); [| apply rtc_refl | set_solver | done].
  rewrite difference_empty_L, size_dom. lia.
Qed.

Lemma dag_node_wf_ok t s :
  (∀ m, rtc R t m → is_Some (lookup !! m) ∧ ¬ tc R m m) →
  never_escapes graph lookup t →
  ∃ l s', dag_node (S (size lookup)) graph lookup ∅ t s = (Ok l, s').
Proof.
  intros Hwf Hesc.
  destruct (dag_node (S (size lookup)) graph lookup ∅ t s) as [[l|e|e] s'] eqn:H.
  - by exists l, s'.
  - apply dag_node_fuel_enough in H. destruct e as [v|m|]; simpl in H.
    + destruct H as [Hv Hvv]. by destruct (proj2 (Hwf v Hv)).
    + destruct H as [Hm Hnone]. destruct (proj1 (Hwf m Hm)) as [? Hb]. congruence.
    + done.
  - destruct (dag_node_escape t _ ∅ t s e s' (rtc_refl _ _) H) as (m & b & g & w & Hm & Hb & He).
    by rewrite (Hesc m b g w Hm Hb) in He.
Qed.

(** A rank certificate: every ranked node is a box whose parents are all
    ranked lower.  Checking it is a computation; it implies
    well-formedness below any ranked node. *)
Definition rank_ok (rank : gmap string nat) : bool :=
  forallb (fun mk : string * nat =>
    bool_decide (is_Some (lookup !! mk.1)) &&
    forallb (fun p => match rank !! p with
                      | Some kp => bool_decide (kp < mk.2)
                      | None => false
                      end)
      (parents_of graph mk.1))
    (map_to_list rank).

(** A closure certificate: a list of boxes closed under taking parents. *)
Definition closed_ok (S : list string) : bool :=
  forallb (fun m => bool_decide (is_Some (lookup !! m)) &&
                    forallb (fun p => bool_decide (p ∈ S)) (parents_of graph m)) S.

Lemma rank_ok_entry rank m k :
  rank_ok rank = true → rank !! m = Some k →
  is_Some (lookup !! m) ∧ ∀ p, R m p → ∃ kp, rank !! p = Some kp ∧ kp < k.
Proof.
  intros Hok Hm. unfold rank_ok in Hok.
  apply forallb_forall with (x := (m, k)) in Hok; [|apply list_elem_of_In, elem_of_map_to_list, Hm].
  apply andb_true_iff in Hok as [H1 H2]. apply bool_decide_eq_true in H1.
  split; [done|]. intros p Hmp.
  apply forallb_forall with (x := p) in H2; [|apply list_elem_of_In, Hmp].
  simpl in H2. destruct (rank !! p) as [kp|]; [|discriminate].
  apply bool_decide_eq_true in H2. by exists kp.
Qed.

Lemma rank_ok_wf rank t :
  rank_ok rank = true → is_Some (rank !! t) →
  ∀ m, rtc R t m → is_Some (lookup !! m) ∧ ¬ tc R m m.
Proof.
  intros Hok Ht m Htm.
  assert (Hm : is_Some (rank !! m)).
  { induction Htm as [|x y z Hxy Hyz IH]; [done|]. apply IH.
    destruct Ht as [kx Hx]. destruct (rank_ok_entry rank x kx Hok Hx) as [_ Hp].
    destruct (Hp y Hxy) as (ky & Hy & _). by exists ky. }
  destruct Hm as [km Hm].
  split; [by apply (rank_ok_entry rank m km)|]. intros Hmm.
  assert (Hlt : ∀ x y kx, tc R x y → rank !! x = Some kx →
            ∃ ky, rank !! y = Some ky ∧ ky < kx).
  { intros x y kx Hxy. revert kx.
    induction Hxy as [x y Hxy|x y z Hxy Hyz IH]; intros kx Hx.
    - by apply (rank_ok_entry rank x kx Hok Hx).
    - destruct (proj2 (rank_ok_entry rank x kx Hok Hx) y Hxy) as (ky & Hy & Hlt1).
      destruct (IH ky Hy) as (kz & Hz & Hlt2). exists kz. split; [done|lia]. }
  destruct (Hlt m m km Hmm Hm) as (k' & Hk' & Hlt'). rewrite Hm in Hk'.
  injection Hk' as <-. lia.
Qed.

Lemma closed_ok_reach S t m :
  closed_ok S = true → t ∈ S → rtc R t m → m ∈ S ∧ is_Some (lookup !! m).
Proof.
  intros Hok Ht Htm. unfold closed_ok in Hok. rewrite forallb_forall in Hok.
  assert (HS : m ∈ S).
  { induction Htm as [|x y z Hxy Hyz IH]; [done|]. apply IH.
    pose proof (Hok x (proj1 (list_elem_of_In _ _) Ht)) as Hx.
    apply andb_true_iff in Hx as [_ Hx]. rewrite forallb_forall in Hx.
    apply (bool_decide_eq_true_1 (y ∈ S)), Hx, list_elem_of_In, Hxy. }
  split; [done|].
  pose proof (Hok m (proj1 (list_elem_of_In _ _) HS)) as Hm.
  apply andb_true_iff in Hm as [Hm _]. by apply bool_decide_eq_true in Hm.
Qed.

End Resolver.

(** * Properties of a request *)

Section Request.
Context `{I : Interp}.

Lemma box_lookup_foldl (bs : list box) (m : gmap string box) t :
  is_Some (foldl (fun (m : gmap string box) b => <[box_id b := b]> m) m bs !! t) ↔
  is_Some (m !! t) ∨ ∃ b, b ∈ bs ∧ box_id b = t.
Proof.
  revert m. induction bs as [|b bs IH]; intros m; simpl.
  - split; [by left|]. intros [?|[b [Hb _]]]; [done|inversion Hb].
  - rewrite IH. destruct (decide (box_id b = t)) as [<-|Hne].
    + rewrite lookup_insert_eq. split; [intros _; right; exists b; split; [left|done]|by left].
    + rewrite lookup_insert_ne by done. split.
      * intros [?|[b' [Hb' Ht]]]; [by left|right; exists b'; split; [by right|done]].
      * intros [?|[b' [Hb' Ht]]]; [by left|].
        apply elem_of_cons in Hb' as [->|Hb']; [done|]. right. by exists b'.
Qed.

Lemma box_lookup_Some boxes t :
  is_Some (box_lookup boxes !! t) ↔ ∃ b, b ∈ boxes ∧ box_id b = t.
Proof.
  unfold box_lookup. rewrite box_lookup_foldl, lookup_empty.
  split; [intros [[? H]|H]; [done|done]|by right].
Qed.

Lemma find_box_Some boxes t :
  is_Some (find_box boxes t) ↔ is_Some (box_lookup boxes !! t).
Proof.
  rewrite box_lookup_Some. unfold find_box. split.
  - intros [b Hb]. apply List.find_some in Hb as [Hin Heq].
    apply bool_decide_eq_true in Heq. exists b. split; [by apply list_elem_of_In|done].
  - intros [b [Hb Ht]].
    destruct (List.find (fun b => bool_decide (box_id b = t)) boxes) as [b'|] eqn:Hf;
      [by eexists|].
    eapply List.find_none in Hf; [|apply list_elem_of_In, Hb].
    rewrite bool_decide_eq_false in Hf. done.
Qed.

Lemma build_graph_arrows (arrows : list arrow) (g : gmap string (list string)) a :
  (∀ k, is_Some (g !! k) →
     is_Some (foldl (fun (g : gmap string (list string)) a =>
       match g !! arrow_end a with
       | Some ps => <[arrow_end a := (ps ++ [arrow_start a])%list]> g
       | None => g
       end) g arrows !! k)) ∧
  (a ∈ arrows → is_Some (g !! arrow_end a) →
     arrow_start a ∈ default [] (foldl (fun (g : gmap string (list string)) a =>
       match g !! arrow_end a with
       | Some ps => <[arrow_end a := (ps ++ [arrow_start a])%list]> g
       | None => g
       end) g arrows !! arrow_end a)).
Proof.
  revert g. induction arrows as [|a' arrows IH]; intros g; simpl.
  - split; [done|]. intros Ha. inversion Ha.
  - set (g' := match g !! arrow_end a' with
               | Some ps => <[arrow_end a' := (ps ++ [arrow_start a'])%list]> g
               | None => g end).
    assert (Hkeys : ∀ k, is_Some (g !! k) → is_Some (g' !! k)).
    { intros k Hk. unfold g'. destruct (g !! arrow_end a') eqn:He; [|done].
      destruct (decide (k = arrow_end a')) as [->|Hne];
        [rewrite lookup_insert_eq; by eexists|by rewrite lookup_insert_ne]. }
    destruct (IH g') as [IH1 IH2]. split.
    + intros k Hk. by apply IH1, Hkeys.
    + intros Ha Hend. apply elem_of_cons in Ha as [->|Ha]; [|by apply IH2, Hkeys].
      (* the arrow itself is appended, and later arrows only append *)
      assert (Hmono : ∀ arrows (g0 : gmap string (list string)) k p,
        p ∈ default [] (g0 !! k) →
        p ∈ default [] (foldl (fun (g : gmap string (list string)) a =>
          match g !! arrow_end a with
          | Some ps => <[arrow_end a := (ps ++ [arrow_start a])%list]> g
          | None => g
          end) g0 arrows !! k)).
      { clear. intros arrows. induction arrows as [|b arrows IH]; intros g0 k p Hp; [done|].
        simpl. apply IH. destruct (g0 !! arrow_end b) as [ps|] eqn:He; [|done].
        destruct (decide (k = arrow_end b)) as [->|Hne].
        - rewrite lookup_insert_eq. simpl. rewrite He in Hp. simpl in Hp.
          apply elem_of_app. by left.
        - by rewrite lookup_insert_ne. }
      apply Hmono. unfold g'. destruct Hend as [ps Hps]. rewrite Hps, lookup_insert_eq.
      simpl. apply elem_of_app. right. by left.
Qed.

Lemma build_graph_parent boxes arrows a :
  a ∈ arrows → is_Some (box_lookup boxes !! arrow_end a) →
  parent_edge (build_graph boxes arrows) (arrow_end a) (arrow_start a).
Proof.
  intros Ha Hend. unfold parent_edge, parents_of, build_graph.
  apply (build_graph_arrows arrows _ a); [done|].
  apply box_lookup_Some in Hend. unfold box_lookup in Hend.
  assert (Hsame : ∀ (bs : list box) (g : gmap string (list string)) t,
    is_Some (g !! t) ∨ (∃ b, b ∈ bs ∧ box_id b = t) →
    is_Some (foldl (fun (g : gmap string (list string)) b => <[box_id b := []]> g) g bs !! t)).
  { clear. intros bs. induction bs as [|b bs IH]; intros g t Ht; simpl.
    - destruct Ht as [?|[b [Hb _]]]; [done|inversion Hb].
    - apply IH. destruct (decide (box_id b = t)) as [<-|Hne].
      + left. rewrite lookup_insert_eq. by eexists.
      + rewrite lookup_insert_ne by done. destruct Ht as [?|[b' [Hb' Ht]]]; [by left|].
        apply elem_of_cons in Hb' as [->|Hb']; [done|]. right. by exists b'. }
  apply Hsame. by right.
Qed.

(** [execute_with_dependencies] step by step. *)
Lemma execute_with_dependencies_eq t c boxes arrows s :
  execute_with_dependencies t c boxes arrows s =
  match find_box boxes t with
  | None => (Ok (mk_result (OText ("Box with ID " ++ t ++ " not found")) true),
             fresh_state (st_world s))
  | Some tb =>
      match dag_node (S (size (box_lookup boxes))) (build_graph boxes arrows)
              (box_lookup boxes) ∅ t (fresh_state (st_world s)) with
      | (Ok l, s1) =>
          try_except (execute_box_code (content tb) l) error_result
            (mk_state (heap s1) (exec_cache s1) (st_world s1)
               (eval_log s1 ++ [(t, default ∅ (heap s1 !! l))])%list)
      | (Raise e, s1) => (Ok (structural_error e), s1)
      | (PyRaise e, s1) => if is_exception e then error_result (inr e) s1 else (PyRaise e, s1)
      end
  end.
Proof.
  unfold execute_with_dependencies, execute_from_graph, reset_cache.
  unfold bind at 1. cbn -[dag_node find_box try_except].
  destruct (find_box boxes t) as [tb|]; [|done].
  unfold try_except. unfold bind at 1. fold (fresh_state (st_world s)).
  destruct (dag_node (S (size (box_lookup boxes))) (build_graph boxes arrows)
    (box_lookup boxes) ∅ t (fresh_state (st_world s))) as [[l|e|e] s1]; cbn -[dag_node].
  - reflexivity.
  - reflexivity.
  - reflexivity.
Qed.

(** Code that touches neither the heap, the cache nor the log. *)
Definition frames {A} (m : M A) : Prop :=
  ∀ s r s', m s = (r, s') →
    heap s' = heap s ∧ exec_cache s' = exec_cache s ∧ eval_log s' = eval_log s.

Lemma frames_ret {A} (a : A) : frames (ret a).
Proof. intros s r s' H. by injection H as _ <-. Qed.

Lemma frames_py_raise {A} e : frames (A := A) (py_raise e).
Proof. intros s r s' H. by injection H as _ <-. Qed.

Lemma frames_call {A} (f : world → call_out world exc A) : frames (call f).
Proof. intros s r s' H. by injection H as _ <-. Qed.

Lemma frames_bind {A B} (m : M A) (k : A → M B) :
  frames m → (∀ a, frames (k a)) → frames (bind m k).
Proof.
  intros Hm Hk s r s' H. unfold bind in H.
  destruct (m s) as [[a|e|e] s1] eqn:H1.
  - destruct (Hm _ _ _ H1) as (? & ? & ?). destruct (Hk a _ _ _ H) as (? & ? & ?).
    split_and!; congruence.
  - injection H as _ <-. by apply (Hm _ _ _ H1).
  - injection H as _ <-. by apply (Hm _ _ _ H1).
Qed.

Lemma frames_error_result e : frames (error_result e).
Proof.
  unfold error_result. apply frames_bind; [|intros; apply frames_ret].
  destruct e; simpl; [apply frames_ret|].
  apply frames_bind; [apply frames_call|intros; apply frames_ret].
Qed.

Ltac frames_tac :=
  repeat first [apply frames_bind | apply frames_call | apply frames_ret
               | case_match | lazymatch goal with |- ∀ _, _ => intros ? end].

Lemma frames_format_value so se v : frames (format_value so se v).
Proof. unfold format_value. cbv zeta. frames_tac. Qed.

(** A handler that frames: [try_except m h] changes the heap, the cache
    and the log as [m] does. *)
Lemma try_except_frame {A} (m : M A) (h : error + exc → M A) s r s' :
  (∀ e, frames (h e)) → try_except m h s = (r, s') →
  ∃ r0 s0, m s = (r0, s0) ∧
    heap s' = heap s0 ∧ exec_cache s' = exec_cache s0 ∧ eval_log s' = eval_log s0.
Proof.
  intros Hh H. unfold try_except in H.
  destruct (m s) as [[a|e|e] s0]; eexists _, s0; (split; [reflexivity|]).
  - by injection H as _ <-.
  - by apply (Hh _ _ _ _ H).
  - destruct (is_exception e); [by apply (Hh _ _ _ _ H)|by injection H as _ <-].
Qed.

(** [_execute_box_code] stores the dict as the run left it at [l], and
    touches neither the rest of the heap, the cache nor the log. *)
Lemma execute_box_code_frame c l s r s' :
  execute_box_code c l s = (r, s') →
  heap s' = <[l := co_env (execute_code c (default ∅ (heap s !! l)) (st_world s))]> (heap s) ∧
  exec_cache s' = exec_cache s ∧ eval_log s' = eval_log s.
Proof.
  unfold execute_box_code. intros H.
  apply try_except_frame in H as (r0 & s0 & H0 & -> & -> & ->); [|apply frames_error_result].
  case_match.
  - by injection H0 as _ <-.
  - apply frames_format_value in H0 as (-> & -> & ->). done.
Qed.

Lemma run_target_frame c l s r s' :
  try_except (execute_box_code c l) error_result s = (r, s') →
  heap s' = <[l := co_env (execute_code c (default ∅ (heap s !! l)) (st_world s))]> (heap s) ∧
  exec_cache s' = exec_cache s ∧ eval_log s' = eval_log s.
Proof.
  intros H.
  apply try_except_frame in H as (r0 & s0 & H0 & -> & -> & ->); [|apply frames_error_result].
  by apply execute_box_code_frame in H0.
Qed.

(** The last-expression binding survives the code: neither the code nor its
    rewrite removes [_last_expr_result] from a dict that has it. *)
Definition keeps_last (c : code) : Prop :=
  ∀ (g : env) w, is_Some (g !! last_expr_key) →
    is_Some (eo_env (exec_py c g w) !! last_expr_key) ∧
    ∀ mc, rewrite_last c = Some mc → is_Some (eo_env (exec_py mc g w) !! last_expr_key).

Lemma execute_code_keeps c g w :
  keeps_last c → is_Some (co_env (execute_code c g w) !! last_expr_key).
Proof.
  intros Hk. unfold execute_code.
  assert (Hg1 : is_Some (<[last_expr_key := vnone]> g !! last_expr_key))
    by (rewrite lookup_insert_eq; by eexists).
  destruct (rewrite_last c) as [mc|] eqn:Hmc.
  - pose proof (proj2 (Hk _ w Hg1) mc Hmc) as Hr.
    destruct (eo_exc (exec_py mc _ w)); simpl; [|done].
    by apply (proj1 (Hk _ _ Hr)).
  - simpl. by apply (proj1 (Hk _ w Hg1)).
Qed.

Lemma last_listed_wins_None (envs : list env) x :
  last_listed_wins envs x = None → ∀ e, e ∈ envs → e !! x = None.
Proof.
  induction envs as [|e0 envs IH]; simpl; intros H e He; [inversion He|].
  destruct (last_listed_wins envs x) eqn:Hl; [discriminate|].
  apply elem_of_cons in He as [->|He]; [done|by apply IH].
Qed.

Lemma box_lookup_in boxes t b : box_lookup boxes !! t = Some b → b ∈ boxes.
Proof.
  unfold box_lookup.
  assert (Hgen : ∀ bs (m : gmap string box),
    foldl (fun (m : gmap string box) b => <[box_id b := b]> m) m bs !! t = Some b →
    m !! t = Some b ∨ b ∈ bs).
  { intros bs. induction bs as [|b0 bs IH]; intros m H; simpl in H; [by left|].
    destruct (IH _ H) as [Hm|Hm]; [|right; by right].
    destruct (decide (box_id b0 = t)) as [<-|Hne].
    - rewrite lookup_insert_eq in Hm. injection Hm as ->. right. left.
    - rewrite lookup_insert_ne in Hm by done. by left. }
  intros H. destruct (Hgen _ _ H) as [Hm|Hm]; [by rewrite lookup_empty in Hm|done].
Qed.

Section Keys.
Context (graph : gmap string (list string)) (lookup : gmap string box).
Context (Hkeep : ∀ m b, lookup !! m = Some b → keeps_last (content b)).

Definition heap_keys (s : state) : Prop :=
  ∀ e, e ∈ heap s → is_Some (e !! last_expr_key).

Lemma dag_node_heap_keys fuel : ∀ V n s l s', heap_keys s →
  dag_node fuel graph lookup V n s = (Ok l, s') → heap_keys s'.
Proof.
  induction fuel as [|f IH]; intros V n s l s' Hs H; cbn [dag_node] in H; [discriminate|].
  destruct (exec_cache s !! n) as [l0|] eqn:Hc; [by injection H as _ <-|].
  destruct (decide (n ∈ V)); [discriminate|].
  destruct (lookup !! n) as [b|] eqn:Hb; [|discriminate].
  assert (Hfin : ∀ s1 merged, heap_keys s1 → heap_keys (finish s1 n merged (content b))).
  { intros s1 merged Hs1 e He. simpl in He. apply elem_of_app in He as [He|He]; [by apply Hs1|].
    apply list_elem_of_singleton in He as ->. by eapply execute_code_keeps, Hkeep. }
  destruct (parents_of graph n) as [|p ps].
  - apply (eval_step_ok s n ∅ (content b)) in H as (_ & _ & ->). by apply Hfin.
  - unfold bind at 1 in H.
    destruct (merge_parents (dag_node f graph lookup ({[n]} ∪ V)) (p :: ps) ∅ s)
      as [[merged|e|e] s1] eqn:Hm; [|discriminate|discriminate].
    apply (eval_step_ok s1 n merged (content b)) in H as (_ & _ & ->). apply Hfin.
    assert (Hloop : ∀ qs acc s0 merged0 s0', heap_keys s0 →
      merge_parents (dag_node f graph lookup ({[n]} ∪ V)) qs acc s0 = (Ok merged0, s0') →
      heap_keys s0').
    { induction qs as [|q qs IHq]; intros acc s0 merged0 s0' Hs0 Hm0; simpl in Hm0;
        [by injection Hm0 as _ <-|].
      unfold bind at 1 in Hm0.
      destruct (dag_node f graph lookup ({[n]} ∪ V) q s0) as [[lq|e|e] s2] eqn:Hq;
        [|discriminate|discriminate].
      simpl in Hm0. eapply IHq; [|exact Hm0]. by eapply IH. }
    by eapply Hloop.
Qed.

End Keys.

(** ** Claims about a request *)

Lemma dag_node_no_escape graph lookup fuel t s e s' :
  never_escapes graph lookup t →
  dag_node fuel graph lookup ∅ t s = (PyRaise e, s') → False.
Proof.
  intros Hesc H.
  destruct (dag_node_escape graph lookup t fuel ∅ t s e s' (rtc_refl _ _) H)
    as (m & b & g & w & Hm & Hb & He).
  by rewrite (Hesc m b g w Hm Hb) in He.
Qed.

(** C1.  On a target below which every node exists, no node lies on a
    cycle and no box's run raises an exception that escapes
    [_execute_single_box] (one that is not an [Exception], or whose
    [str()] raises), one request evaluates the reachable nodes during
    resolution exactly once each (the target included), and then
    evaluates the target's box once more (line 54): the log of
    evaluations is [L] followed by the target, where [L] lists every
    reachable node exactly once. *)
Theorem request_evaluates_target_twice (t : string) (c : code) (boxes : list box)
    (arrows : list arrow) (s : state) (r : res exec_result) (s' : state) :
  (∀ m, rtc (parent_edge (build_graph boxes arrows)) t m →
        is_Some (box_lookup boxes !! m) ∧ ¬ tc (parent_edge (build_graph boxes arrows)) m m) →
  never_escapes (build_graph boxes arrows) (box_lookup boxes) t →
  execute_with_dependencies t c boxes arrows s = (r, s') →
  ∃ L gt, eval_log s' = (L ++ [(t, gt)])%list ∧ NoDup (map fst L) ∧
    (∀ m, m ∈ map fst L ↔ rtc (parent_edge (build_graph boxes arrows)) t m).
Proof.
  intros Hwf Hesc H. rewrite execute_with_dependencies_eq in H.
  destruct (Hwf t (rtc_refl _ _)) as [Ht _].
  apply find_box_Some in Ht as [tb Htb]. rewrite Htb in H.
  destruct (dag_node_wf_ok (build_graph boxes arrows) (box_lookup boxes) t
              (fresh_state (st_world s)) Hwf Hesc) as (l & s1 & Hd).
  rewrite Hd in H. apply run_target_frame in H as (_ & _ & H). simpl in H.
  destruct (dag_node_ok _ _ _ ∅ t _ l s1 (inv_fresh _ _ _) Hd) as (HI & _ & Hc & _ & Hnew).
  exists (eval_log s1), (default ∅ (heap s1 !! l)). split; [exact H|]. split; [apply HI|].
  intros m. rewrite (inv_log_cache _ _ _ HI). split.
  - intros Hm. destruct (Hnew m Hm) as [[? Hm0]|]; [|done].
    simpl in Hm0. by rewrite lookup_empty in Hm0.
  - intros Htm. eapply cached_parents_closed; [done| |done]. by eexists.
Qed.

(** C2.  During resolution, the dict a node is evaluated against is the
    merge of its parents' resolved dicts in the order their arrows were
    supplied, the last parent binding a name winning. *)
Theorem merged_input_last_listed_wins (t : string) (boxes : list box) (arrows : list arrow)
    (w : world) (l : nat) (s' : state) :
  dag_node (S (size (box_lookup boxes))) (build_graph boxes arrows) (box_lookup boxes)
    ∅ t (fresh_state w) = (Ok l, s') →
  ∀ n gin, (n, gin) ∈ eval_log s' → ∀ x,
    gin !! x = last_listed_wins
                 (map (resolved_env s') (parents_of (build_graph boxes arrows) n)) x.
Proof.
  intros H. destruct (dag_node_ok _ _ _ ∅ t _ l s' (inv_fresh _ _ _) H) as (HI & _).
  apply (inv_log_input _ _ _ HI).
Qed.

(** C3 (amended).  Resolving a node of a cycle whose reachable nodes all
    exist, and whose reachable boxes raise nothing that escapes
    [_execute_single_box], fails with the cycle error, naming a node
    reachable from the target that lies on a cycle; a node below which
    every node exists, none lies on a cycle and no box's run escapes is
    resolved. *)
Theorem cycle_resolution_fails (t d : string) (c : code) (boxes : list box)
    (arrows : list arrow) (s : state) :
  (∀ m, rtc (parent_edge (build_graph boxes arrows)) t m → is_Some (box_lookup boxes !! m)) →
  tc (parent_edge (build_graph boxes arrows)) t t →
  never_escapes (build_graph boxes arrows) (box_lookup boxes) t →
  (∀ m, rtc (parent_edge (build_graph boxes arrows)) d m →
        is_Some (box_lookup boxes !! m) ∧ ¬ tc (parent_edge (build_graph boxes arrows)) m m) →
  never_escapes (build_graph boxes arrows) (box_lookup boxes) d →
  (∃ v, rtc (parent_edge (build_graph boxes arrows)) t v ∧
        tc (parent_edge (build_graph boxes arrows)) v v ∧
        fst (execute_with_dependencies t c boxes arrows s) = Ok (structural_error (ErrCycle v))) ∧
  (∃ l s1, dag_node (S (size (box_lookup boxes))) (build_graph boxes arrows) (box_lookup boxes)
             ∅ d (fresh_state (st_world s)) = (Ok l, s1)).
Proof.
  intros Hall Hcyc Hesc Hd Hescd. split; [|by apply dag_node_wf_ok].
  rewrite execute_with_dependencies_eq.
  destruct (Hall t (rtc_refl _ _)) as [tb0 Ht].
  destruct (proj2 (find_box_Some boxes t) (ex_intro _ tb0 Ht)) as [tb Htb]. rewrite Htb.
  destruct (dag_node (S (size (box_lookup boxes))) (build_graph boxes arrows) (box_lookup boxes)
              ∅ t (fresh_state (st_world s))) as [[l|e|e] s1] eqn:H.
  - exfalso. destruct (dag_node_ok _ _ _ ∅ t _ l s1 (inv_fresh _ _ _) H) as (HI & _ & Hc & _).
    eapply (cached_not_cyclic _ _ s1 t HI); [by eexists|done].
  - apply dag_node_fuel_enough in H. destruct e as [v|m|]; simpl in H.
    + exists v. by destruct H.
    + destruct H as [Hm Hnone]. destruct (Hall m Hm). congruence.
    + done.
  - exfalso. exact (dag_node_no_escape _ _ _ _ _ _ _ Hesc H).
Qed.

(** C4 (amended).  An evaluation that raises an [Exception] whose [str()]
    returns is not fatal.  On a target below which every node exists,
    none lies on a cycle and no box's run escapes [_execute_single_box],
    resolution succeeds and evaluates every node reachable from the
    target; each evaluated node ran on the merge of its parents' stored
    dicts, and each parent's stored dict is the dict its own run left,
    whether that run raised or not. *)
Theorem ancestor_failure_not_fatal (t : string) (boxes : list box) (arrows : list arrow)
    (w : world) :
  (∀ m, rtc (parent_edge (build_graph boxes arrows)) t m →
        is_Some (box_lookup boxes !! m) ∧ ¬ tc (parent_edge (build_graph boxes arrows)) m m) →
  never_escapes (build_graph boxes arrows) (box_lookup boxes) t →
  ∃ l s1, dag_node (S (size (box_lookup boxes))) (build_graph boxes arrows) (box_lookup boxes)
            ∅ t (fresh_state w) = (Ok l, s1) ∧
    (∀ m, rtc (parent_edge (build_graph boxes arrows)) t m → ∃ gin, (m, gin) ∈ eval_log s1) ∧
    (∀ n gin, (n, gin) ∈ eval_log s1 → ∀ x,
       gin !! x = last_listed_wins
                    (map (resolved_env s1) (parents_of (build_graph boxes arrows) n)) x) ∧
    (∀ n gin p, (n, gin) ∈ eval_log s1 → p ∈ parents_of (build_graph boxes arrows) n →
       ∃ bp gp wp, box_lookup boxes !! p = Some bp ∧ (p, gp) ∈ eval_log s1 ∧
         resolved_env s1 p = co_env (execute_code (content bp) gp wp)).
Proof.
  intros Hwf Hesc.
  destruct (dag_node_wf_ok (build_graph boxes arrows) (box_lookup boxes) t
              (fresh_state w) Hwf Hesc) as (l & s1 & Hd).
  exists l, s1. split; [done|].
  destruct (dag_node_ok _ _ _ ∅ t _ l s1 (inv_fresh _ _ _) Hd) as (HI & _ & Hc & _).
  split_and!.
  - intros m Hm.
    assert (Hcm : is_Some (exec_cache s1 !! m))
      by (eapply cached_parents_closed; [done| |done]; by eexists).
    apply (inv_log_cache _ _ _ HI) in Hcm.
    apply list_elem_of_fmap in Hcm as ([m' gin] & Hm' & Hin). simpl in Hm'. subst m'.
    by exists gin.
  - apply (inv_log_input _ _ _ HI).
  - intros n gin p Hin Hp.
    apply (list_elem_of_fmap_2 fst) in Hin. simpl in Hin.
    destruct (proj1 (inv_log_cache _ _ _ HI n) Hin) as [ln Hln].
    destruct (inv_parents _ _ _ HI _ _ p Hln Hp) as [lp [Hlp _]].
    destruct (inv_run _ _ _ HI _ _ Hlp) as (bp & gp & wp & Hbp & Hgp & Hheap).
    exists bp, gp, wp. split_and!; [done|done|].
    unfold resolved_env. by rewrite Hlp, Hheap.
Qed.

(** C7 (amended).  A request on a target from which the end of an arrow
    with a missing endpoint is reachable, and whose reachable boxes raise
    nothing that escapes [_execute_single_box], fails: either the target
    itself is missing, or resolution raises a structural error about a
    node reachable from the target, a missing node or a node on a cycle. *)
Theorem dangling_edge_fails (t : string) (c : code) (boxes : list box) (arrows : list arrow)
    (s : state) (a : arrow) :
  a ∈ arrows →
  box_lookup boxes !! arrow_start a = None ∨ box_lookup boxes !! arrow_end a = None →
  rtc (parent_edge (build_graph boxes arrows)) t (arrow_end a) →
  never_escapes (build_graph boxes arrows) (box_lookup boxes) t →
  (find_box boxes t = None ∧
   fst (execute_with_dependencies t c boxes arrows s) =
     Ok (mk_result (OText ("Box with ID " ++ t ++ " not found")) true)) ∨
  (∃ m, rtc (parent_edge (build_graph boxes arrows)) t m ∧ box_lookup boxes !! m = None ∧
        fst (execute_with_dependencies t c boxes arrows s) = Ok (structural_error (ErrNotFound m))) ∨
  (∃ v, rtc (parent_edge (build_graph boxes arrows)) t v ∧
        tc (parent_edge (build_graph boxes arrows)) v v ∧
        fst (execute_with_dependencies t c boxes arrows s) = Ok (structural_error (ErrCycle v))).
Proof.
  intros Ha Hdang Hreach Hesc. rewrite execute_with_dependencies_eq.
  destruct (find_box boxes t) as [tb|] eqn:Htb; [|by left].
  right.
  destruct (dag_node (S (size (box_lookup boxes))) (build_graph boxes arrows) (box_lookup boxes)
              ∅ t (fresh_state (st_world s))) as [[l|e|e] s1] eqn:H.
  - exfalso. destruct (dag_node_ok _ _ _ ∅ t _ l s1 (inv_fresh _ _ _) H) as (HI & _ & Hc & _).
    assert (Hcached : ∀ m, rtc (parent_edge (build_graph boxes arrows)) t m →
              is_Some (box_lookup boxes !! m)).
    { intros m Hm. destruct (cached_parents_closed _ _ s1 t m HI ltac:(by eexists) Hm) as [lm Hlm].
      eapply inv_box; eauto. }
    pose proof (Hcached _ Hreach) as Hend.
    destruct Hdang as [Hstart|Hend']; [|by rewrite Hend' in Hend; destruct Hend].
    assert (Hs : rtc (parent_edge (build_graph boxes arrows)) t (arrow_start a)).
    { eapply rtc_r; [exact Hreach|]. by apply build_graph_parent. }
    destruct (Hcached _ Hs). congruence.
  - apply dag_node_fuel_enough in H. destruct e as [v|m|]; simpl in H.
    + right. exists v. by destruct H.
    + left. exists m. by destruct H.
    + done.
  - exfalso. exact (dag_node_no_escape _ _ _ _ _ _ _ Hesc H).
Qed.

(** C8 (amended).  The cache, the heap and the log a previous request left
    play no part: two requests from the same interpreter state return the
    same result and leave the same state. *)
Theorem request_independent_of_previous_cache (t : string) (c : code) (boxes : list box)
    (arrows : list arrow) (s1 s2 : state) :
  st_world s1 = st_world s2 →
  execute_with_dependencies t c boxes arrows s1 = execute_with_dependencies t c boxes arrows s2.
Proof. intros Hw. rewrite !execute_with_dependencies_eq. by rewrite Hw. Qed.

(** C9.  The request's [code] argument does not matter: the stored
    content of the target box is what runs. *)
Theorem request_ignores_code_argument (t : string) (c1 c2 : code) (boxes : list box)
    (arrows : list arrow) (s : state) :
  execute_with_dependencies t c1 boxes arrows s = execute_with_dependencies t c2 boxes arrows s.
Proof. reflexivity. Qed.

(** C10 (amended).  When no box's code removes [_last_expr_result], every
    dict the resolver stores binds it, and so does the input of every node
    with at least one parent. *)
Theorem last_expr_result_kept (t : string) (boxes : list box) (arrows : list arrow)
    (w : world) (l : nat) (s' : state) :
  (∀ b, b ∈ boxes → keeps_last (content b)) →
  dag_node (S (size (box_lookup boxes))) (build_graph boxes arrows) (box_lookup boxes)
    ∅ t (fresh_state w) = (Ok l, s') →
  (∀ m lm, exec_cache s' !! m = Some lm → is_Some (default ∅ (heap s' !! lm) !! last_expr_key)) ∧
  (∀ n gin, (n, gin) ∈ eval_log s' → parents_of (build_graph boxes arrows) n ≠ [] →
     is_Some (gin !! last_expr_key)).
Proof.
  intros Hkeep H.
  assert (Hk : ∀ m b, box_lookup boxes !! m = Some b → keeps_last (content b)).
  { intros m b Hb. by eapply Hkeep, box_lookup_in. }
  assert (Hheap : heap_keys s').
  { eapply (dag_node_heap_keys _ _ Hk); [|exact H]. intros e He. inversion He. }
  destruct (dag_node_ok _ _ _ ∅ t _ l s' (inv_fresh _ _ _) H) as (HI & _).
  assert (Hcached : ∀ m lm, exec_cache s' !! m = Some lm →
            is_Some (default ∅ (heap s' !! lm) !! last_expr_key)).
  { intros m lm Hm. pose proof (inv_loc _ _ _ HI _ _ Hm) as Hlt.
    apply lookup_lt_is_Some_2 in Hlt as [e He]. rewrite He. simpl.
    apply Hheap. by eapply list_elem_of_lookup_2. }
  split; [done|].
  intros n gin Hin Hpar. rewrite (inv_log_input _ _ _ HI _ _ Hin).
  destruct (parents_of (build_graph boxes arrows) n) as [|p ps] eqn:Hps; [done|].
  destruct (last_listed_wins _ _) as [v|] eqn:Hl; [by eexists|].
  exfalso.
  apply (list_elem_of_fmap_2 fst) in Hin. simpl in Hin.
  destruct (proj1 (inv_log_cache _ _ _ HI n) Hin) as [ln Hln].
  assert (Hnp : parent_edge (build_graph boxes arrows) n p) by (unfold parent_edge; rewrite Hps; left).
  destruct (inv_parents _ _ _ HI _ _ _ Hln Hnp) as [lp [Hp _]].
  pose proof (last_listed_wins_None _ _ Hl (resolved_env s' p) ltac:(left)) as Hnone.
  unfold resolved_env in Hnone. rewrite Hp in Hnone.
  destruct (Hcached p lp Hp) as [? Hx]. congruence.
Qed.

End Request.

(** * Further properties of the executor *)

Section Further.
Context `{I : Interp}.

Lemma arrows_foldl (arrows : list arrow) (g : gmap string (list string)) n :
  foldl (fun (g : gmap string (list string)) a => match g !! arrow_end a with
                    | Some ps => <[arrow_end a := (ps ++ [arrow_start a])%list]> g
                    | None => g
                    end) g arrows !! n =
  match g !! n with
  | Some ps => Some (ps ++ map arrow_start (filter (fun a => arrow_end a = n) arrows))%list
  | None => None
  end.
Proof.
  revert g. induction arrows as [|a arrows IH]; intros g; simpl.
  - destruct (g !! n); [by rewrite app_nil_r|done].
  - rewrite IH. rewrite filter_cons.
    destruct (decide (arrow_end a = n)) as [<-|Hne].
    + destruct (g !! arrow_end a) as [ps|] eqn:Hg.
      * rewrite lookup_insert_eq. simpl. by rewrite <- app_assoc.
      * by rewrite Hg.
    + destruct (g !! arrow_end a) as [ps|] eqn:Hg; [|done].
      by rewrite lookup_insert_ne.
Qed.

Lemma boxes_foldl (boxes : list box) (g : gmap string (list string)) n :
  foldl (fun (g : gmap string (list string)) b => <[box_id b := []]> g) g boxes !! n =
  if bool_decide (n ∈ map box_id boxes) then Some [] else g !! n.
Proof.
  revert g. induction boxes as [|b boxes IH]; intros g; simpl; [done|].
  rewrite IH. destruct (bool_decide_reflect (n ∈ map box_id boxes)) as [Hin|Hin].
  - rewrite bool_decide_true; [done|]. by right.
  - destruct (decide (box_id b = n)) as [<-|Hne].
    + rewrite bool_decide_true; [|by left]. by rewrite lookup_insert_eq.
    + rewrite bool_decide_false; [by rewrite lookup_insert_ne|].
      intros Hc. apply elem_of_cons in Hc as [Hc|Hc]; [by subst|done].
Qed.

Lemma box_lookup_last_gen (boxes : list box) (m : gmap string box) n :
  foldl (fun (m : gmap string box) b => <[box_id b := b]> m) m boxes !! n =
  match last (filter (fun b => box_id b = n) boxes) with
  | Some b => Some b
  | None => m !! n
  end.
Proof.
  revert m. induction boxes as [|b boxes IH]; intros m; simpl; [done|].
  rewrite IH, filter_cons.
  destruct (decide (box_id b = n)) as [<-|Hne].
  - rewrite last_cons. destruct (last (filter _ boxes)); [done|].
    by rewrite lookup_insert_eq.
  - destruct (last (filter _ boxes)); [done|]. by rewrite lookup_insert_ne.
Qed.

Lemma find_head (boxes : list box) n :
  find_box boxes n = head (filter (fun b => box_id b = n) boxes).
Proof.
  unfold find_box. induction boxes as [|b boxes IH]; simpl; [done|].
  rewrite filter_cons. destruct (decide (box_id b = n)) as [Hb|Hb].
  - by rewrite bool_decide_true.
  - by rewrite bool_decide_false.
Qed.

Lemma last_listed_wins_Some (envs : list env) x :
  is_Some (last_listed_wins envs x) ↔ ∃ e, e ∈ envs ∧ is_Some (e !! x).
Proof.
  induction envs as [|e es IH]; simpl.
  - split; [by intros []|]. intros (e & He & _). inversion He.
  - destruct (last_listed_wins es x) as [v|] eqn:Hl.
    + split; [|by eexists]. intros _. destruct (proj1 IH ltac:(by eexists)) as (e' & He' & Hx).
      exists e'. split; [by right|done].
    + split.
      * intros Hx. exists e. split; [left|done].
      * intros (e' & He' & Hx). apply elem_of_cons in He' as [->|He']; [done|].
        destruct (proj2 IH ltac:(by exists e')) as [? Hc]. discriminate.
Qed.

Lemma format_value_ok so se v s rr s' :
  format_value so se v s = (Ok rr, s') → r_error rr = false.
Proof.
  unfold format_value, bind, call, ret. cbv zeta. intros H.
  repeat (case_match; simplify_eq/=; try done).
Qed.

Lemma string_app_nil (a b : string) : (a ++ b = "" ↔ a = "" ∧ b = "").
Proof.
  destruct a as [|c a]; simpl; [split; [done|by intros []]|].
  split; [discriminate|by intros [? _]].
Qed.

(** Lines 31-38: a box's parents are the starts of the arrows that end at
    it, in the order the arrows were supplied and with repetitions; an
    arrow ending at an id that is no box's is dropped. *)
Theorem build_graph_parents (boxes : list box) (arrows : list arrow) (n : string) :
  parents_of (build_graph boxes arrows) n =
  if bool_decide (n ∈ map box_id boxes)
  then map arrow_start (filter (fun a => arrow_end a = n) arrows)
  else [].
Proof.
  unfold parents_of, build_graph. rewrite arrows_foldl, boxes_foldl.
  destruct (bool_decide (n ∈ map box_id boxes)); [done|].
  by rewrite lookup_empty.
Qed.

(** Lines 41 and 46: when several boxes share an id, [box_lookup] (used by
    the resolver) holds the last of them and [next(...)] (the target run at
    line 54) picks the first. *)
Theorem duplicate_ids_first_and_last (boxes : list box) (n : string) :
  box_lookup boxes !! n = last (filter (fun b => box_id b = n) boxes) ∧
  find_box boxes n = head (filter (fun b => box_id b = n) boxes).
Proof.
  split; [|apply find_head].
  unfold box_lookup. rewrite box_lookup_last_gen.
  destruct (last _); [done|]. by rewrite lookup_empty.
Qed.

(** Lines 40-43: a request for an id that is no box's answers
    [Box with ID ... not found] with [error] set; it evaluates nothing,
    empties the cache and leaves the interpreter's world as it was. *)
Theorem missing_target_not_found (t : string) (c : code) (boxes : list box)
    (arrows : list arrow) (s : state) :
  t ∉ map box_id boxes →
  execute_with_dependencies t c boxes arrows s =
    (Ok (mk_result (OText ("Box with ID " ++ t ++ " not found")) true),
     mk_state [] ∅ (st_world s) []).
Proof.
  intros Ht. rewrite execute_with_dependencies_eq.
  destruct (find_box boxes t) as [b|] eqn:Hf; [|done].
  exfalso. apply Ht.
  destruct (proj1 (box_lookup_Some boxes t) (proj1 (find_box_Some boxes t) ltac:(by eexists)))
    as (b' & Hb' & <-).
  by apply list_elem_of_fmap_2.
Qed.

(** Lines 49-54 with 60-109: after a request on a target below which
    every node exists and none lies on a cycle, the execution cache holds
    exactly the nodes reachable from the target. *)
Theorem request_cache_is_reachable_set (t : string) (c : code) (boxes : list box)
    (arrows : list arrow) (s : state) (r : res exec_result) (s' : state) :
  (∀ m, rtc (parent_edge (build_graph boxes arrows)) t m →
        is_Some (box_lookup boxes !! m) ∧ ¬ tc (parent_edge (build_graph boxes arrows)) m m) →
  never_escapes (build_graph boxes arrows) (box_lookup boxes) t →
  execute_with_dependencies t c boxes arrows s = (r, s') →
  ∀ m, is_Some (exec_cache s' !! m) ↔ rtc (parent_edge (build_graph boxes arrows)) t m.
Proof.
  intros Hwf Hesc H. rewrite execute_with_dependencies_eq in H.
  destruct (Hwf t (rtc_refl _ _)) as [Ht _].
  apply find_box_Some in Ht as [tb Htb]. rewrite Htb in H.
  destruct (dag_node_wf_ok (build_graph boxes arrows) (box_lookup boxes) t
              (fresh_state (st_world s)) Hwf Hesc) as (l & s1 & Hd).
  rewrite Hd in H. apply run_target_frame in H as (_ & Hc' & _). simpl in Hc'.
  rewrite Hc'.
  destruct (dag_node_ok _ _ _ ∅ t _ l s1 (inv_fresh _ _ _) Hd) as (HI & _ & Hc & _ & Hnew).
  intros m. split.
  - intros Hm. destruct (Hnew m Hm) as [[? Hm0]|]; [|done].
    simpl in Hm0. by rewrite lookup_empty in Hm0.
  - intros Htm. eapply cached_parents_closed; [done| |done]. by eexists.
Qed.

(** Lines 83-109: within a resolution, a node's dict is stored only after
    the dicts of all its parents: the heap location of every parent is
    smaller than its child's. *)
Theorem parents_stored_before_child (t : string) (boxes : list box) (arrows : list arrow)
    (w : world) (l : nat) (s' : state) :
  dag_node (S (size (box_lookup boxes))) (build_graph boxes arrows) (box_lookup boxes)
    ∅ t (fresh_state w) = (Ok l, s') →
  ∀ n ln p, exec_cache s' !! n = Some ln → p ∈ parents_of (build_graph boxes arrows) n →
    ∃ lp, exec_cache s' !! p = Some lp ∧ lp < ln.
Proof.
  intros H n ln p Hn Hp.
  destruct (dag_node_ok _ _ _ ∅ t _ l s' (inv_fresh _ _ _) H) as (HI & _).
  exact (inv_parents _ _ _ HI n ln p Hn Hp).
Qed.

(** Lines 83-98: the dict a node is evaluated against binds exactly the
    names bound by at least one of its parents; in particular a box with
    no incoming arrow is evaluated against an empty dict. *)
Theorem merged_input_names (t : string) (boxes : list box) (arrows : list arrow)
    (w : world) (l : nat) (s' : state) :
  dag_node (S (size (box_lookup boxes))) (build_graph boxes arrows) (box_lookup boxes)
    ∅ t (fresh_state w) = (Ok l, s') →
  ∀ n gin, (n, gin) ∈ eval_log s' → ∀ x,
    is_Some (gin !! x) ↔
    ∃ p, p ∈ parents_of (build_graph boxes arrows) n ∧ is_Some (resolved_env s' p !! x).
Proof.
  intros H n gin Hin x.
  destruct (dag_node_ok _ _ _ ∅ t _ l s' (inv_fresh _ _ _) H) as (HI & _).
  rewrite (inv_log_input _ _ _ HI _ _ Hin), last_listed_wins_Some. split.
  - intros (e & He & Hx). apply list_elem_of_fmap in He as (p & -> & Hp). by exists p.
  - intros (p & Hp & Hx). exists (resolved_env s' p). split; [|done].
    by apply list_elem_of_fmap_2.
Qed.

(** Lines 122-192: [_execute_box_code] runs the code on the dict at
    location [l] itself and leaves there the dict as the run left it, the
    rest of the heap and the cache untouched.  When the code raised an
    [Exception] whose [str()] returns, the answer has [error] set and
    reads [type: message] followed by the traceback; an exception that is
    not an [Exception], or one raised by that [str()], escapes.  When the
    code did not raise, an answer has [error] unset exactly when the
    formatting of the last value (lines 131-186) did not raise. *)
Theorem box_code_outcome (c : code) (l : nat) (s : state) :
  let r := execute_code c (default ∅ (heap s !! l)) (st_world s) in
  heap (snd (execute_box_code c l s)) = <[l := co_env r]> (heap s) ∧
  exec_cache (snd (execute_box_code c l s)) = exec_cache s ∧
  match co_raised r with
  | Some e =>
      if is_exception e then
        match cl_ret (exc_str e (co_world r)) with
        | inr m => fst (execute_box_code c l s) =
                     Ok (mk_result (OText ((exc_type_name e ++ ": " ++ m) ++ "
" ++ format_exc)) true)
        | inl e' => fst (execute_box_code c l s) = PyRaise e'
        end
      else fst (execute_box_code c l s) = PyRaise e
  | None =>
      ∀ rr, fst (execute_box_code c l s) = Ok rr →
        (r_error rr = false ↔
         ∃ s2, format_value (co_stdout r) (co_stderr r) (co_value r)
                 (mk_state (<[l := co_env r]> (heap s)) (exec_cache s) (co_world r) (eval_log s))
               = (Ok rr, s2))
  end.
Proof.
  intros r.
  destruct (execute_box_code c l s) as [res s'] eqn:H.
  destruct (execute_box_code_frame _ _ _ _ _ H) as (Hh & Hc & _).
  split; [done|]. split; [done|]. simpl.
  unfold execute_box_code in H. fold r in H.
  destruct (co_raised r) as [e|] eqn:Hr.
  - unfold try_except, py_raise in H. simpl in H.
    destruct (is_exception e); [|by injection H as <- _].
    unfold error_result, exc_text, bind, call, ret in H. simpl in H.
    destruct (cl_ret (exc_str e (co_world r))); by injection H as <- _.
  - intros rr ->. unfold try_except in H.
    destruct (format_value _ _ _ _) as [[a|e|e] s2] eqn:Hf.
    + injection H as -> _. split; [intros _; by exists s2|].
      intros _. by eapply format_value_ok.
    + unfold error_result, exc_text, bind, ret in H. simpl in H.
      injection H as <- _. simpl. split; [discriminate|].
      intros [s3 Hs3]. congruence.
    + destruct (is_exception e); [|discriminate H].
      unfold error_result, exc_text, bind, call, ret in H. simpl in H.
      destruct (cl_ret (exc_str e (st_world s2))); [discriminate H|].
      injection H as <- _. simpl. split; [discriminate|].
      intros [s3 Hs3]. congruence.
Qed.

(** Lines 131-186: an answer the formatting of a last value returns has
    [error] unset; it is the plain string form only when the value is
    [None], is not a figure and has no [_repr_html_]; in the structured
    form, [text_output] is [None] exactly when nothing was printed to
    stdout or stderr. *)
Theorem format_value_shape (so se : string) (v : val) (s : state) (rr : exec_result)
    (s' : state) :
  format_value so se v s = (Ok rr, s') →
  r_error rr = false ∧
  match r_output rr with
  | OText _ => is_figure v = false ∧ cl_ret (has_html v (st_world s)) = inr false ∧
               is_none v = true
  | OStruct t _ => (t = None ↔ so = "" ∧ se = "") ∧
                   (is_figure v = true ∨ cl_ret (has_html v (st_world s)) = inr true ∨
                    is_none v = false)
  end.
Proof.
  intros H. split; [by eapply format_value_ok|].
  assert (Ht :
    ((if decide ((so ++ (if decide (se = "") then "" else "
Error: " ++ se)) = "") then None
      else Some (strip (so ++ (if decide (se = "") then "" else "
Error: " ++ se)))) = None ↔ so = "" ∧ se = "")).
  { destruct (decide (_ = "")) as [Hz|Hz].
    - split; [|done]. intros _. apply string_app_nil in Hz as [-> Hz].
      split; [done|]. destruct (decide (se = "")); [done|discriminate].
    - split; [discriminate|]. intros [-> ->]. simpl in Hz. done. }
  revert H. unfold format_value, bind, call, ret. cbv zeta.
  destruct (is_figure v) eqn:Hfig.
  { destruct (cl_ret (savefig_png v (st_world s))); intros H; simplify_eq/=.
    split; [exact Ht|by left]. }
  destruct (cl_ret (has_html v (st_world s))) as [e|[|]] eqn:Hh; intros H; simplify_eq/=.
  - destruct (cl_ret (repr_html v _)); simplify_eq/=.
    destruct (cl_ret (py_str v _)); simplify_eq/=.
    split; [exact Ht|by right; left].
  - destruct (is_none v) eqn:Hn; simplify_eq/=; [done|].
    destruct (cl_ret (py_str v _)); simplify_eq/=.
    split; [exact Ht|by right; right].
Qed.

End Further.

(** * The HTTP layer: [src/backend/app.py] and [src/backend/models.py]

    The workspace file is written only by [save_workspace_to_file], with
    [json.dump] of [workspace.dict()] for a [Workspace] that pydantic has
    validated (unknown fields are dropped).  [json.load] gives back the
    same dicts, so the file is represented by the [Workspace] it was
    written from; a missing file and an unreadable one both load as
    [{"boxes": [], "arrows": []}]. *)

(** JSON values, for the free-form [results] field of a box. *)
#[warnings="-register-all"]
Inductive json :=
| JNull
| JBool (b : bool)
| JInt (z : Z)
| JFloat (f : PrimFloat.float)
| JStr (s : string)
| JArr (l : list json)
| JObj (fields : list (string * json)).

(** [models.Box], [models.Arrow], [models.Workspace],
    [models.ExecutionRequest]. *)
Record Box := mk_Box {
  Box_id : string;
  Box_x : PrimFloat.float;
  Box_y : PrimFloat.float;
  Box_width : PrimFloat.float;
  Box_height : PrimFloat.float;
  Box_content : string;
  Box_results : option (list (string * json))
}.

Record Arrow := mk_Arrow { Arrow_id : string; Arrow_source : string; Arrow_target : string }.

Record Workspace := mk_Workspace { Workspace_boxes : list Box; Workspace_arrows : list Arrow }.

Record ExecutionRequest := mk_ExecutionRequest { boxId : string; request_code : string }.

(** The exception raised by a subscription [d[k]] of a dict. *)
Inductive pyerr := KeyError (k : string).

(** [str(e)]: [str(KeyError('end'))] is ['end'] with its quotes. *)
Definition pyerr_str (e : pyerr) : string :=
  match e with KeyError k => "'" ++ k ++ "'" end.

(** [arrow.dict()[k]]: the dict of an [Arrow] has the keys [id], [source]
    and [target], all with string values. *)
Definition Arrow_item (a : Arrow) (k : string) : pyerr + string :=
  if decide (k = "id") then inr (Arrow_id a)
  else if decide (k = "source") then inr (Arrow_source a)
  else if decide (k = "target") then inr (Arrow_target a)
  else inl (KeyError k).

(** The workspace file. *)
Inductive store := NoFile | Unreadable | Saved (w : Workspace).

(** [load_workspace_from_file] (lines 41-48). *)
Definition load_workspace_from_file (st : store) : Workspace :=
  match st with
  | Saved w => w
  | NoFile | Unreadable => mk_Workspace [] []
  end.

Section Api.
Context `{I : Interp}.
(** A box's [content] string as the code [exec] runs. *)
Context (source : string -> code).

Notation "'let*' x ':=' m 'in' k" := (bind m (fun x => k))
  (at level 200, x name, m at level 100, k at level 200).

(** The state of the server: the workspace file and the executor. *)
Record app_state := mk_app { app_store : store; app_exec : state }.

(** A stored box as the executor reads it: [box['id']] and
    [box['content']] are the string fields [id] and [content]. *)
Definition box_of (b : Box) : box := mk_box (Box_id b) (source (Box_content b)).

(** Lines 36-38 on the dicts of the stored arrows:
    [if arrow['end'] in graph: graph[arrow['end']].append(arrow['start'])]. *)
Fixpoint add_arrows (graph : gmap string (list string)) (arrows : list Arrow)
    : pyerr + gmap string (list string) :=
  match arrows with
  | [] => inr graph
  | a :: rest =>
      match Arrow_item a "end" with
      | inl e => inl e
      | inr e =>
          match graph !! e with
          | Some ps =>
              match Arrow_item a "start" with
              | inl er => inl er
              | inr st => add_arrows (<[e := (ps ++ [st])%list]> graph) rest
              end
          | None => add_arrows graph rest
          end
      end
  end.

(** [execute_with_dependencies] on the stored dicts: a [KeyError] of lines
    34-38 is raised outside the [try] and leaves the method. *)
Definition execute_with_dependencies_dicts (bid : string) (boxes : list Box)
    (arrows : list Arrow) : M (pyerr + exec_result) :=
  let* _ := reset_cache in
  let graph0 := foldl (fun (g : gmap string (list string)) b => <[Box_id b := []]> g) ∅ boxes in
  match add_arrows graph0 arrows with
  | inl e => ret (inl e)
  | inr graph =>
      let* r := execute_from_graph bid (map box_of boxes) graph in
      ret (inr r)
  end.

(** [update_workspace] (lines 60-64). *)
Definition update_workspace (w : Workspace) (a : app_state) : string * app_state :=
  ("success", mk_app (Saved w) (app_exec a)).

(** What the server sends back: an [ExecutionResult], or nothing when an
    exception leaves the endpoint. *)
Inductive response := Answer (r : exec_result) | Uncaught (e : exc).

(** The [execute_code] endpoint (lines 66-83): an [Exception] becomes
    [ExecutionResult(output=str(e), error=True)]; [str(e)] may raise, and
    an exception that is not an [Exception] is not caught. *)
Definition execute_code_endpoint (req : ExecutionRequest) (a : app_state)
    : response * app_state :=
  let workspace := load_workspace_from_file (app_store a) in
  match execute_with_dependencies_dicts (boxId req) (Workspace_boxes workspace)
          (Workspace_arrows workspace) (app_exec a) with
  | (Ok (inr r), s') => (Answer r, mk_app (app_store a) s')
  | (Ok (inl e), s') => (Answer (mk_result (OText (pyerr_str e)) true), mk_app (app_store a) s')
  | (Raise e, s') => (Answer (mk_result (OText (error_message e)) true), mk_app (app_store a) s')
  | (PyRaise e, s') =>
      if is_exception e then
        let o := exc_str e (st_world s') in
        let s'' := mk_state (heap s') (exec_cache s') (cl_world o) (eval_log s') in
        match cl_ret o with
        | inr m => (Answer (mk_result (OText m) true), mk_app (app_store a) s'')
        | inl e' => (Uncaught e', mk_app (app_store a) s'')
        end
      else (Uncaught e, mk_app (app_store a) s')
  end.

Lemma boxes_graph_map (boxes : list Box) (g : gmap string (list string)) :
  foldl (fun (g : gmap string (list string)) b => <[Box_id b := []]> g) g boxes =
  foldl (fun (g : gmap string (list string)) b => <[box_id b := []]> g) g (map box_of boxes).
Proof. revert g. induction boxes as [|b boxes IH]; intros g; simpl; [done|]. apply IH. Qed.

Lemma execute_with_dependencies_from_graph bid c boxes arrows :
  execute_with_dependencies bid c boxes arrows =
  (let* _ := reset_cache in execute_from_graph bid boxes (build_graph boxes arrows)).
Proof. reflexivity. Qed.

(** Lines 36-37 with [models.Arrow] and lines 60-83: once a workspace with
    at least one arrow has been saved through [POST /workspace], every
    [POST /execute] answers [{output: "'end'", error: true}]: the stored
    arrows have the keys [id], [source] and [target], and the executor
    reads [arrow['end']].  No code runs, and the interpreter state is
    left as it was. *)
Theorem saved_arrows_break_execute (w : Workspace) (req : ExecutionRequest) (a : app_state) :
  Workspace_arrows w ≠ [] →
  execute_code_endpoint req (snd (update_workspace w a)) =
    (Answer (mk_result (OText "'end'") true),
     mk_app (Saved w) (mk_state [] ∅ (st_world (app_exec a)) [])).
Proof.
  intros Hw. unfold execute_code_endpoint, update_workspace. simpl.
  unfold execute_with_dependencies_dicts. unfold bind at 1. simpl.
  destruct (Workspace_arrows w) as [|ar rest]; [done|]. simpl.
  reflexivity.
Qed.

(** Lines 66-83 with lines 26-58: a saved workspace without arrows is
    run by [POST /execute] as [execute_with_dependencies] runs its boxes;
    the request's [code] is not read and the file is left as it was. *)
Theorem saved_without_arrows_execute (w : Workspace) (req : ExecutionRequest)
    (a : app_state) (c : code) (r : exec_result) (s' : state) :
  Workspace_arrows w = [] →
  execute_with_dependencies (boxId req) c (map box_of (Workspace_boxes w)) [] (app_exec a)
    = (Ok r, s') →
  execute_code_endpoint req (snd (update_workspace w a)) = (Answer r, mk_app (Saved w) s').
Proof.
  intros Hw H. rewrite execute_with_dependencies_from_graph in H.
  unfold execute_code_endpoint, update_workspace. simpl.
  unfold execute_with_dependencies_dicts. rewrite Hw. simpl.
  unfold bind at 1 in H. simpl in H. unfold bind at 1. simpl.
  rewrite boxes_graph_map. unfold build_graph in H. simpl in H.
  unfold bind. rewrite H. reflexivity.
Qed.

(** Lines 41-48 and 66-83: with no workspace file, or one [json.load]
    cannot read, [POST /execute] answers [Box with ID ... not found] with
    [error] set, and runs no code. *)
Theorem no_workspace_not_found (req : ExecutionRequest) (a : app_state) :
  app_store a = NoFile ∨ app_store a = Unreadable →
  execute_code_endpoint req a =
    (Answer (mk_result (OText ("Box with ID " ++ boxId req ++ " not found")) true),
     mk_app (app_store a) (mk_state [] ∅ (st_world (app_exec a)) [])).
Proof.
  intros Hst. unfold execute_code_endpoint.
  assert (Hl : load_workspace_from_file (app_store a) = mk_Workspace [] [])
    by (destruct Hst as [-> | ->]; reflexivity).
  rewrite Hl. reflexivity.
Qed.

End Api.

(** * Concrete workspaces *)

Module Examples.
Import Toy.

(** Boxes whose code never executes [del _last_expr_result]. *)
Definition no_del_key (c : list stmt) : bool :=
  forallb (fun st => match st with
                     | SDel x => negb (bool_decide (x = last_expr_key))
                     | _ => true
                     end) c.

(** A diamond: A below B and C, both below D. *)
Definition dia_boxes : list box :=
  [mk_box "A" [SAssign "x" (EInt 1)];
   mk_box "B" [SAssign "y" (EAdd (EVar "x") (EInt 1))];
   mk_box "C" [SAssign "z" (EAdd (EVar "x") (EInt 2))];
   mk_box "D" [SExpr (EAdd (EVar "y") (EVar "z"))]].
Definition dia_arrows : list arrow :=
  [mk_arrow "A" "B"; mk_arrow "A" "C"; mk_arrow "B" "D"; mk_arrow "C" "D"].
Definition dia_rank : gmap string nat :=
  {[ "A" := 0; "B" := 1; "C" := 1; "D" := 2 ]}.

(** Three parents binding [x] to 1, 2 and 3, listed in that order. *)
Definition par_boxes : list box :=
  [mk_box "P1" [SAssign "x" (EInt 1)];
   mk_box "P2" [SAssign "x" (EInt 2)];
   mk_box "P3" [SAssign "x" (EInt 3)];
   mk_box "C" [SExpr (EVar "x")]].
Definition par_arrows : list arrow :=
  [mk_arrow "P1" "C"; mk_arrow "P2" "C"; mk_arrow "P3" "C"].

(** The cycle A -> B -> C -> A, next to an unrelated box D. *)
Definition cyc_boxes : list box :=
  [mk_box "A" [SAssign "a" (EInt 1)];
   mk_box "B" [SAssign "b" (EInt 2)];
   mk_box "C" [SAssign "c" (EInt 3)];
   mk_box "D" [SAssign "d" (EInt 4)]].
Definition cyc_arrows : list arrow :=
  [mk_arrow "A" "B"; mk_arrow "B" "C"; mk_arrow "C" "A"].
(** The same cycle, with an arrow from a missing box M into C listed first. *)
Definition cyc_dangling_arrows : list arrow :=
  [mk_arrow "M" "C"; mk_arrow "A" "B"; mk_arrow "B" "C"; mk_arrow "C" "A"].

(** A box whose code fails after binding [x], below a box reading [x]. *)
Definition fail_A_code : list stmt :=
  [SAssign "x" (EInt 5); SAssign "y" (EFloorDiv (EInt 1) (EInt 0))].
Definition fail_boxes : list box :=
  [mk_box "A" fail_A_code;
   mk_box "B" [SExpr (EVar "x")]].
Definition fail_arrows : list arrow := [mk_arrow "A" "B"].

(** A box that binds [x] and then calls [exit()], below a box reading [x]. *)
Definition exit_A_code : list stmt := [SAssign "x" (EInt 5); SExpr EExit].
Definition exit_boxes : list box :=
  [mk_box "A" exit_A_code;
   mk_box "B" [SExpr (EVar "x")]].

(** The target B fails on its first evaluation only. *)
Definition tf_B_code : list stmt :=
  [SAssign "x" (EAdd (EVar "x") (EInt 1)); SAssign "y" (EFloorDiv (EInt 1) (EVar "x"))].
Definition tf_boxes : list box :=
  [mk_box "A" [SAssign "x" (ESub (EInt 0) (EInt 1))]; mk_box "B" tf_B_code].
Definition tf_arrows : list arrow := [mk_arrow "A" "B"].

(** The target B increments a name it inherits. *)
Definition inc_boxes : list box :=
  [mk_box "A" [SAssign "x" (EInt 0)];
   mk_box "B" [SAssign "x" (EAdd (EVar "x") (EInt 1))]].
Definition inc_arrows : list arrow := [mk_arrow "A" "B"].

(** A dangling arrow M -> T behind a self-loop on C. *)
Definition dl_boxes : list box :=
  [mk_box "C" [SAssign "c" (EInt 1)]; mk_box "T" [SExpr (EVar "c")]].
Definition dl_arrows : list arrow :=
  [mk_arrow "C" "T"; mk_arrow "M" "T"; mk_arrow "C" "C"].
(** A dangling arrow M -> B next to A -> B. *)
Definition dl2_boxes : list box :=
  [mk_box "A" [SAssign "a" (EInt 1)]; mk_box "B" [SExpr (EVar "a")]].
Definition dl2_arrows : list arrow := [mk_arrow "M" "B"; mk_arrow "A" "B"].

(** A box counting its runs in an attribute of [sys]. *)
Definition counter_code : list stmt :=
  [SSysSetattr "counter" (EAdd (ESysGetattr "counter" (EInt 0)) (EInt 1));
   SExpr (ESysGetattr "counter" (EInt 0))].
Definition counter_boxes : list box := [mk_box "K" counter_code].

(** A box deleting [_last_expr_result], below a box reading nothing. *)
Definition del_boxes : list box :=
  [mk_box "A" [SDel last_expr_key]; mk_box "B" [SAssign "b" (EInt 1)]].
Definition del_arrows : list arrow := [mk_arrow "A" "B"].

(** A box binding [x], below a box showing it. *)
Definition keep_boxes : list box :=
  [mk_box "A" [SAssign "x" (EInt 1)]; mk_box "B" [SExpr (EVar "x")]].
Definition keep_arrows : list arrow := [mk_arrow "A" "B"].

Ltac edge := unfold parent_edge; apply list_elem_of_In; vm_compute; auto.

(** Boxes without [exit()] raise nothing that escapes
    [_execute_single_box]. *)
Lemma toy_never_escapes (boxes : list box) graph t :
  forallb (fun b => no_exit (content b)) boxes = true →
  never_escapes graph (box_lookup boxes) t.
Proof.
  intros Hall m b g w _ Hb. apply toy_no_escape.
  apply box_lookup_in in Hb. rewrite forallb_forall in Hall.
  apply Hall, list_elem_of_In, Hb.
Qed.

Lemma pair_of_fst {A B} (p : A * B) (a : A) : fst p = a → p = (a, snd p).
Proof. destruct p. simpl. congruence. Qed.

Lemma no_del_exec c g w :
  no_del_key c = true → is_Some (g !! last_expr_key) →
  is_Some (eo_env (exec_stmts c g w) !! last_expr_key).
Proof.
  revert g w. induction c as [|st c IH]; intros g w Hc Hg; [done|].
  simpl in Hc. apply andb_true_iff in Hc as [Hst Hc].
  destruct st as [x e|x|e|a e]; simpl.
  - destruct (eval_expr g w e) as [ex|v]; [done|]. apply IH; [done|].
    destruct (decide (x = last_expr_key)) as [->|Hx].
    + by rewrite lookup_insert_eq.
    + by rewrite lookup_insert_ne.
  - destruct (g !! x) eqn:Hgx; [|done]. apply IH; [done|].
    apply negb_true_iff, bool_decide_eq_false in Hst. by rewrite lookup_delete_ne.
  - destruct (eval_expr g w e); [done|]. by apply IH.
  - destruct (eval_expr g w e); [done|]. by apply IH.
Qed.

Lemma no_del_keeps_last (c : list stmt) : no_del_key c = true → keeps_last c.
Proof.
  intros Hc g w Hg. split; [by apply no_del_exec|].
  intros mc Hmc. apply no_del_exec; [|done]. simpl in Hmc.
  unfold rewrite_last_expr in Hmc.
  destruct (reverse c) as [|st init] eqn:Hrev; [discriminate|].
  destruct st; try discriminate. injection Hmc as <-.
  assert (Hc' : c = (reverse init ++ [SExpr e])%list).
  { rewrite <- (reverse_involutive c), Hrev. by rewrite reverse_cons. }
  rewrite Hc' in Hc. unfold no_del_key in *. rewrite forallb_app in *.
  apply andb_true_iff in Hc as [Hc _]. by rewrite Hc.
Qed.

(** Witness of C1, on the diamond: the log is A, B, C, D, then D again. *)
Lemma request_evaluates_target_twice_witness :
  ∃ L gt, eval_log (snd (execute_with_dependencies "D" [] dia_boxes dia_arrows init_state))
            = (L ++ [("D", gt)])%list ∧ NoDup (map fst L) ∧
    (∀ m, m ∈ map fst L ↔ rtc (parent_edge (build_graph dia_boxes dia_arrows)) "D" m).
Proof.
  apply (request_evaluates_target_twice (I := toy_interp) "D" [] dia_boxes dia_arrows init_state
           (fst (execute_with_dependencies (I := toy_interp) "D" [] dia_boxes dia_arrows init_state))).
  - apply (rank_ok_wf _ _ dia_rank); [vm_compute; reflexivity|exists 2; vm_compute; reflexivity].
  - apply toy_never_escapes. vm_compute. reflexivity.
  - apply surjective_pairing.
Defined.

(** Witness of C2: P1, P2 and P3 bind [x] to 1, 2 and 3; the input of C
    takes P3's. *)
Lemma merged_input_last_listed_wins_witness :
  parents_of (build_graph par_boxes par_arrows) "C" = ["P1"; "P2"; "P3"] ∧
  map (fun p => resolved_env (snd (dag_node (S (size (box_lookup par_boxes)))
                   (build_graph par_boxes par_arrows) (box_lookup par_boxes) ∅ "C"
                   (fresh_state ∅))) p !! "x") ["P1"; "P2"; "P3"]
    = [Some (VInt 1); Some (VInt 2); Some (VInt 3)] ∧
  (∀ n gin, (n, gin) ∈ eval_log (snd (dag_node (S (size (box_lookup par_boxes)))
                   (build_graph par_boxes par_arrows) (box_lookup par_boxes) ∅ "C"
                   (fresh_state ∅))) →
     ∀ x, gin !! x = last_listed_wins
                       (map (resolved_env (snd (dag_node (S (size (box_lookup par_boxes)))
                          (build_graph par_boxes par_arrows) (box_lookup par_boxes) ∅ "C"
                          (fresh_state ∅))))
                          (parents_of (build_graph par_boxes par_arrows) n)) x).
Proof.
  split; [vm_compute; reflexivity|]. split; [vm_compute; reflexivity|].
  apply (merged_input_last_listed_wins (I := toy_interp) "C" par_boxes par_arrows ∅ 3
           (snd (dag_node (S (size (box_lookup par_boxes))) (build_graph par_boxes par_arrows)
                   (box_lookup par_boxes) ∅ "C" (fresh_state ∅)))).
  apply pair_of_fst. vm_compute. reflexivity.
Defined.

(** C3 counterexample: C lies on the cycle A -> B -> C -> A, but an arrow
    from the missing box M into C comes first, and the request reports M
    as not found instead of the cycle. *)
Lemma cycle_reports_not_found_first :
  tc (parent_edge (build_graph cyc_boxes cyc_dangling_arrows)) "C" "C" ∧
  fst (execute_with_dependencies "C" [] cyc_boxes cyc_dangling_arrows init_state)
    = Ok (structural_error (ErrNotFound "M")).
Proof.
  split; [|vm_compute; reflexivity].
  apply (tc_l _ _ "B"); [edge|]. apply (tc_l _ _ "A"); [edge|]. apply tc_once. edge.
Qed.

(** Witness of C3: the request on C fails with the cycle error, and D is
    resolved. *)
Lemma cycle_resolution_fails_witness :
  (∃ v, rtc (parent_edge (build_graph cyc_boxes cyc_arrows)) "C" v ∧
        tc (parent_edge (build_graph cyc_boxes cyc_arrows)) v v ∧
        fst (execute_with_dependencies "C" [] cyc_boxes cyc_arrows init_state)
          = Ok (structural_error (ErrCycle v))) ∧
  (∃ l s1, dag_node (S (size (box_lookup cyc_boxes))) (build_graph cyc_boxes cyc_arrows)
             (box_lookup cyc_boxes) ∅ "D" (fresh_state (st_world init_state)) = (Ok l, s1)).
Proof.
  apply (cycle_resolution_fails (I := toy_interp) "C" "D" [] cyc_boxes cyc_arrows init_state).
  - intros m Hm. eapply proj2, (closed_ok_reach (build_graph cyc_boxes cyc_arrows) (box_lookup cyc_boxes)
                                   ["A"; "B"; "C"] "C");
      [vm_compute; reflexivity|apply list_elem_of_In; vm_compute; auto|exact Hm].
  - apply (tc_l _ _ "B"); [edge|]. apply (tc_l _ _ "A"); [edge|]. apply tc_once. edge.
  - apply toy_never_escapes. vm_compute. reflexivity.
  - apply (rank_ok_wf _ _ {[ "D" := 0 ]}); [vm_compute; reflexivity|exists 0; vm_compute; reflexivity].
  - apply toy_never_escapes. vm_compute. reflexivity.
Defined.

(** C4 counterexample: A binds [x] and then calls [exit()]; B, below A,
    is never evaluated, and the [SystemExit] leaves the request. *)
Lemma ancestor_exit_fatal :
  (∀ m, rtc (parent_edge (build_graph exit_boxes fail_arrows)) "B" m →
        is_Some (box_lookup exit_boxes !! m) ∧
        ¬ tc (parent_edge (build_graph exit_boxes fail_arrows)) m m) ∧
  co_raised (execute_code exit_A_code ∅ ∅) = Some SystemExit ∧
  fst (dag_node (S (size (box_lookup exit_boxes))) (build_graph exit_boxes fail_arrows)
         (box_lookup exit_boxes) ∅ "B" (fresh_state ∅)) = PyRaise SystemExit ∧
  eval_log (snd (execute_with_dependencies "B" [] exit_boxes fail_arrows init_state))
    = [("A", ∅)] ∧
  fst (execute_with_dependencies "B" [] exit_boxes fail_arrows init_state) = PyRaise SystemExit.
Proof.
  split; [|split_and!; vm_compute; reflexivity].
  apply (rank_ok_wf _ _ {[ "A" := 0; "B" := 1 ]});
    [vm_compute; reflexivity|exists 1; vm_compute; reflexivity].
Qed.

(** Witness of C4: A binds [x] and then divides by zero; B, below A, is
    evaluated on the dict A's run left, and shows the [x] that A bound. *)
Lemma ancestor_failure_not_fatal_witness :
  co_raised (execute_code fail_A_code ∅ ∅) = Some ZeroDivisionError ∧
  (∃ l s1, dag_node (S (size (box_lookup fail_boxes))) (build_graph fail_boxes fail_arrows)
             (box_lookup fail_boxes) ∅ "B" (fresh_state ∅) = (Ok l, s1) ∧
    (∀ m, rtc (parent_edge (build_graph fail_boxes fail_arrows)) "B" m →
          ∃ gin, (m, gin) ∈ eval_log s1) ∧
    (∀ n gin, (n, gin) ∈ eval_log s1 → ∀ x,
       gin !! x = last_listed_wins
                    (map (resolved_env s1) (parents_of (build_graph fail_boxes fail_arrows) n)) x) ∧
    (∀ n gin p, (n, gin) ∈ eval_log s1 → p ∈ parents_of (build_graph fail_boxes fail_arrows) n →
       ∃ bp gp wp, box_lookup fail_boxes !! p = Some bp ∧ (p, gp) ∈ eval_log s1 ∧
         resolved_env s1 p = co_env (execute_code (content bp) gp wp))) ∧
  fst (execute_with_dependencies "B" [] fail_boxes fail_arrows init_state)
    = Ok (mk_result (OStruct None [("text/plain", "5")]) false).
Proof.
  split; [vm_compute; reflexivity|]. split; [|vm_compute; reflexivity].
  apply (ancestor_failure_not_fatal (I := toy_interp) "B" fail_boxes fail_arrows ∅).
  - apply (rank_ok_wf _ _ {[ "A" := 0; "B" := 1 ]});
      [vm_compute; reflexivity|exists 1; vm_compute; reflexivity].
  - apply toy_never_escapes. vm_compute. reflexivity.
Defined.

(** C5: the failure of the target's own evaluation is swallowed.  With A
    binding [x = -1] and B running [x = x + 1; y = 1 // x], the resolver
    evaluates B once on A's dict, where the division raises
    [ZeroDivisionError]; the error goes to the cache like an ancestor's,
    and the request then runs B again on that cached dict, where [x]
    becomes 1 and nothing raises: the caller gets an empty output and
    [error = false]. *)
Theorem target_failure_swallowed_example :
  eval_log (snd (execute_with_dependencies "B" [] tf_boxes tf_arrows init_state))
    = [("A", ∅);
       ("B", {[ last_expr_key := VNone; "x" := VInt (-1) ]});
       ("B", {[ last_expr_key := VNone; "x" := VInt 0 ]})] ∧
  co_raised (execute_code tf_B_code {[ last_expr_key := VNone; "x" := VInt (-1) ]} ∅)
    = Some ZeroDivisionError ∧
  fst (execute_with_dependencies "B" [] tf_boxes tf_arrows init_state)
    = Ok (mk_result (OText "") false).
Proof. split_and!; vm_compute; reflexivity. Qed.

(** C6: the dict cached for the target is mutated in place by the final
    evaluation (line 54).  With A binding [x = 0] and B running
    [x = x + 1], resolution caches B's dict at location 1 with [x = 1];
    after the request the cache still points to location 1, which now
    holds [x = 2]. *)
Theorem cached_target_env_mutated_example :
  fst (dag_node (S (size (box_lookup inc_boxes))) (build_graph inc_boxes inc_arrows)
         (box_lookup inc_boxes) ∅ "B" (fresh_state ∅)) = Ok 1 ∧
  exec_cache (snd (dag_node (S (size (box_lookup inc_boxes))) (build_graph inc_boxes inc_arrows)
         (box_lookup inc_boxes) ∅ "B" (fresh_state ∅))) !! "B" = Some 1 ∧
  (heap (snd (dag_node (S (size (box_lookup inc_boxes))) (build_graph inc_boxes inc_arrows)
         (box_lookup inc_boxes) ∅ "B" (fresh_state ∅))) !! 1) ≫= (.!! "x") = Some (VInt 1) ∧
  exec_cache (snd (execute_with_dependencies "B" [] inc_boxes inc_arrows init_state)) !! "B"
    = Some 1 ∧
  (heap (snd (execute_with_dependencies "B" [] inc_boxes inc_arrows init_state)) !! 1)
    ≫= (.!! "x") = Some (VInt 2).
Proof. split_and!; vm_compute; reflexivity. Qed.

(** C7 counterexample: the arrow M -> T has a missing start and T is the
    target, but the self-loop on C, the parent listed first, is met before
    M: the request reports a cycle, not a missing box. *)
Lemma dangling_edge_reports_cycle_first :
  mk_arrow "M" "T" ∈ dl_arrows ∧ box_lookup dl_boxes !! "M" = None ∧
  fst (execute_with_dependencies "T" [] dl_boxes dl_arrows init_state)
    = Ok (structural_error (ErrCycle "C")).
Proof.
  split; [apply list_elem_of_In; simpl; tauto|]. split; vm_compute; reflexivity.
Qed.

(** Witness of C7: the dangling arrow M -> B into the target B. *)
Lemma dangling_edge_fails_witness :
  ((find_box dl2_boxes "B" = None ∧
    fst (execute_with_dependencies "B" [] dl2_boxes dl2_arrows init_state) =
      Ok (mk_result (OText ("Box with ID " ++ "B" ++ " not found")) true)) ∨
   (∃ m, rtc (parent_edge (build_graph dl2_boxes dl2_arrows)) "B" m ∧
         box_lookup dl2_boxes !! m = None ∧
         fst (execute_with_dependencies "B" [] dl2_boxes dl2_arrows init_state)
           = Ok (structural_error (ErrNotFound m))) ∨
   (∃ v, rtc (parent_edge (build_graph dl2_boxes dl2_arrows)) "B" v ∧
         tc (parent_edge (build_graph dl2_boxes dl2_arrows)) v v ∧
         fst (execute_with_dependencies "B" [] dl2_boxes dl2_arrows init_state)
           = Ok (structural_error (ErrCycle v)))) ∧
  fst (execute_with_dependencies "B" [] dl2_boxes dl2_arrows init_state)
    = Ok (structural_error (ErrNotFound "M")).
Proof.
  split; [|vm_compute; reflexivity].
  apply (dangling_edge_fails (I := toy_interp) "B" [] dl2_boxes dl2_arrows init_state (mk_arrow "M" "B")).
  - apply list_elem_of_In. simpl. tauto.
  - left. vm_compute. reflexivity.
  - apply rtc_refl.
  - apply toy_never_escapes. vm_compute. reflexivity.
Defined.

(** C8 counterexample: a box that counts its runs in an attribute of
    [sys].  The first request shows 2 (the box runs twice per request,
    see C1), the same request repeated shows 4. *)
Lemma repeated_request_differs :
  fst (execute_with_dependencies "K" [] counter_boxes [] init_state)
    = Ok (mk_result (OStruct None [("text/plain", "2")]) false) ∧
  fst (execute_with_dependencies "K" [] counter_boxes []
         (snd (execute_with_dependencies "K" [] counter_boxes [] init_state)))
    = Ok (mk_result (OStruct None [("text/plain", "4")]) false).
Proof. split; vm_compute; reflexivity. Qed.

(** Witness of C8: a stale cache, heap and log make no difference. *)
Lemma request_independent_of_previous_cache_witness :
  execute_with_dependencies "K" [] counter_boxes [] init_state =
  execute_with_dependencies "K" [] counter_boxes [] (mk_state [∅] {[ "K" := 0 ]} ∅ [("K", ∅)]).
Proof. apply request_independent_of_previous_cache. reflexivity. Defined.

(** C10 counterexample: A runs [del _last_expr_result]; the dict cached
    for A lacks the name, and so does the input B is evaluated against. *)
Lemma last_expr_result_deleted :
  exec_cache (snd (dag_node (S (size (box_lookup del_boxes))) (build_graph del_boxes del_arrows)
         (box_lookup del_boxes) ∅ "B" (fresh_state ∅))) !! "A" = Some 0 ∧
  (heap (snd (dag_node (S (size (box_lookup del_boxes))) (build_graph del_boxes del_arrows)
         (box_lookup del_boxes) ∅ "B" (fresh_state ∅))) !! 0) ≫= (.!! last_expr_key) = None ∧
  eval_log (snd (dag_node (S (size (box_lookup del_boxes))) (build_graph del_boxes del_arrows)
         (box_lookup del_boxes) ∅ "B" (fresh_state ∅))) = [("A", ∅); ("B", ∅)].
Proof. split_and!; vm_compute; reflexivity. Qed.

(** Witness of C10: A binds [x], B below it shows [x]; no box deletes
    [_last_expr_result]. *)
Lemma last_expr_result_kept_witness :
  (∀ m lm, exec_cache (snd (dag_node (S (size (box_lookup keep_boxes)))
              (build_graph keep_boxes keep_arrows) (box_lookup keep_boxes) ∅ "B"
              (fresh_state ∅))) !! m = Some lm →
     is_Some (default ∅ (heap (snd (dag_node (S (size (box_lookup keep_boxes)))
              (build_graph keep_boxes keep_arrows) (box_lookup keep_boxes) ∅ "B"
              (fresh_state ∅))) !! lm) !! last_expr_key)) ∧
  (∀ n gin, (n, gin) ∈ eval_log (snd (dag_node (S (size (box_lookup keep_boxes)))
              (build_graph keep_boxes keep_arrows) (box_lookup keep_boxes) ∅ "B"
              (fresh_state ∅))) →
     parents_of (build_graph keep_boxes keep_arrows) n ≠ [] →
     is_Some (gin !! last_expr_key)).
Proof.
  apply (last_expr_result_kept (I := toy_interp) "B" keep_boxes keep_arrows ∅ 1
           (snd (dag_node (S (size (box_lookup keep_boxes))) (build_graph keep_boxes keep_arrows)
                   (box_lookup keep_boxes) ∅ "B" (fresh_state ∅)))).
  - assert (Hall : Forall (fun b => no_del_key (content b) = true) keep_boxes)
      by (repeat constructor).
    intros b Hb. apply no_del_keeps_last. exact (proj1 (Forall_forall _ _) Hall b Hb).
  - apply pair_of_fst. vm_compute. reflexivity.
Defined.

End Examples.

(** * Further concrete workspaces *)

Module MoreExamples.
Import Toy Examples.

(** The programs the stored [content] strings of the examples stand for. *)
Definition toy_source (src : string) : @code toy_interp :=
  if decide (src = "x = 41") then [SAssign "x" (EInt 41)]
  else if decide (src = "x + 1") then [SExpr (EAdd (EVar "x") (EInt 1))]
  else if decide (src = "x = 41
x + 1") then [SAssign "x" (EInt 41); SExpr (EAdd (EVar "x") (EInt 1))]
  else [].

Definition stored_box (bid content : string) : Box :=
  mk_Box bid PrimFloat.zero PrimFloat.zero PrimFloat.one PrimFloat.one content None.

(** Two boxes joined by an arrow, as the frontend saves them. *)
Definition linked_workspace : Workspace :=
  mk_Workspace [stored_box "A" "x = 41"; stored_box "B" "x + 1"] [mk_Arrow "a1" "A" "B"].

(** One box and no arrow. *)
Definition single_workspace : Workspace :=
  mk_Workspace [stored_box "A" "x = 41
x + 1"] [].

Definition fresh_app : app_state := mk_app NoFile init_state.

Lemma missing_target_not_found_witness :
  ("Z" ∉ map box_id dia_boxes) ∧
  (execute_with_dependencies "Z" [] dia_boxes dia_arrows init_state =
     (Ok (mk_result (OText ("Box with ID " ++ "Z" ++ " not found")) true),
      mk_state [] ∅ (st_world init_state) [])).
Proof.
  assert (H : "Z" ∉ map box_id dia_boxes).
  { intros Hc. apply list_elem_of_In in Hc. vm_compute in Hc. intuition discriminate. }
  split; [exact H|].
  exact (missing_target_not_found (I := toy_interp) "Z" [] dia_boxes dia_arrows init_state H).
Defined.

(** On the diamond, the request on D caches A, which lies two arrows
    above D, and D itself. *)
Lemma request_cache_is_reachable_set_witness :
  is_Some (exec_cache (snd (execute_with_dependencies "D" [] dia_boxes dia_arrows init_state)) !! "A") ∧
  is_Some (exec_cache (snd (execute_with_dependencies "D" [] dia_boxes dia_arrows init_state)) !! "D").
Proof.
  pose proof (request_cache_is_reachable_set (I := toy_interp) "D" [] dia_boxes dia_arrows init_state
           (fst (execute_with_dependencies (I := toy_interp) "D" [] dia_boxes dia_arrows init_state))
           (snd (execute_with_dependencies (I := toy_interp) "D" [] dia_boxes dia_arrows init_state))
           (rank_ok_wf (build_graph dia_boxes dia_arrows) (box_lookup dia_boxes) dia_rank "D"
              ltac:(vm_compute; reflexivity) ltac:(exists 2; vm_compute; reflexivity))
           (toy_never_escapes dia_boxes _ "D" ltac:(vm_compute; reflexivity))
           (surjective_pairing _)) as H.
  split; apply H.
  - apply (rtc_l _ _ "B"); [edge|]. apply (rtc_l _ _ "A"); [edge|]. apply rtc_refl.
  - apply rtc_refl.
Defined.

(** On the diamond, D's dict is stored at location 3, after its parents'. *)
Lemma parents_stored_before_child_witness :
  ∃ s', dag_node (S (size (box_lookup dia_boxes))) (build_graph dia_boxes dia_arrows)
          (box_lookup dia_boxes) ∅ "D" (fresh_state ∅) = (Ok 3, s') ∧
        ∀ n ln p, exec_cache s' !! n = Some ln → p ∈ parents_of (build_graph dia_boxes dia_arrows) n →
          ∃ lp, exec_cache s' !! p = Some lp ∧ lp < ln.
Proof.
  eexists (snd (dag_node (S (size (box_lookup dia_boxes))) (build_graph dia_boxes dia_arrows)
                 (box_lookup dia_boxes) ∅ "D" (fresh_state (I := toy_interp) ∅))).
  assert (H : dag_node (S (size (box_lookup dia_boxes))) (build_graph dia_boxes dia_arrows)
                (box_lookup dia_boxes) ∅ "D" (fresh_state (I := toy_interp) ∅)
              = (Ok 3, snd (dag_node (S (size (box_lookup dia_boxes))) (build_graph dia_boxes dia_arrows)
                 (box_lookup dia_boxes) ∅ "D" (fresh_state (I := toy_interp) ∅))))
    by (apply pair_of_fst; vm_compute; reflexivity).
  split; [exact H|].
  exact (parents_stored_before_child (I := toy_interp) "D" dia_boxes dia_arrows ∅ 3 _ H).
Defined.

(** With parents P1, P2 and P3, the input of C binds what they bind. *)
Lemma merged_input_names_witness :
  ∃ s', dag_node (S (size (box_lookup par_boxes))) (build_graph par_boxes par_arrows)
          (box_lookup par_boxes) ∅ "C" (fresh_state ∅) = (Ok 3, s') ∧
        ∀ n gin, (n, gin) ∈ eval_log s' → ∀ x,
          is_Some (gin !! x) ↔
          ∃ p, p ∈ parents_of (build_graph par_boxes par_arrows) n ∧ is_Some (resolved_env s' p !! x).
Proof.
  eexists (snd (dag_node (S (size (box_lookup par_boxes))) (build_graph par_boxes par_arrows)
                 (box_lookup par_boxes) ∅ "C" (fresh_state (I := toy_interp) ∅))).
  assert (H : dag_node (S (size (box_lookup par_boxes))) (build_graph par_boxes par_arrows)
                (box_lookup par_boxes) ∅ "C" (fresh_state (I := toy_interp) ∅)
              = (Ok 3, snd (dag_node (S (size (box_lookup par_boxes))) (build_graph par_boxes par_arrows)
                 (box_lookup par_boxes) ∅ "C" (fresh_state (I := toy_interp) ∅))))
    by (apply pair_of_fst; vm_compute; reflexivity).
  split; [exact H|].
  exact (merged_input_names (I := toy_interp) "C" par_boxes par_arrows ∅ 3 _ H).
Defined.

(** The value 42, printed nothing: the answer is its [str] form. *)
Lemma format_value_shape_witness :
  format_value (I := toy_interp) "" "" (VInt 42) init_state =
    (Ok (mk_result (OStruct None [("text/plain", "42")]) false),
     snd (format_value (I := toy_interp) "" "" (VInt 42) init_state)) ∧
  r_error (mk_result (OStruct None [("text/plain", "42")]) false) = false ∧
  ((None : option string) = None ↔ "" = "" ∧ "" = "") ∧
  (is_figure (VInt 42) = true ∨ cl_ret (has_html (VInt 42) (st_world init_state)) = inr true ∨
   is_none (VInt 42) = false).
Proof.
  assert (H : format_value (I := toy_interp) "" "" (VInt 42) init_state =
    (Ok (mk_result (OStruct None [("text/plain", "42")]) false),
     snd (format_value (I := toy_interp) "" "" (VInt 42) init_state)))
    by (apply pair_of_fst; vm_compute; reflexivity).
  split; [exact H|].
  exact (format_value_shape (I := toy_interp) "" "" (VInt 42) init_state _ _ H).
Defined.

(** Saving two boxes joined by an arrow, then running B. *)
Lemma saved_arrows_break_execute_witness :
  Workspace_arrows linked_workspace ≠ [] ∧
  execute_code_endpoint toy_source (mk_ExecutionRequest "B" "x + 1")
    (snd (update_workspace linked_workspace fresh_app)) =
    (Answer (mk_result (OText "'end'") true),
     mk_app (Saved linked_workspace) (mk_state [] ∅ (st_world (app_exec fresh_app)) [])).
Proof.
  assert (H : Workspace_arrows linked_workspace ≠ []) by discriminate.
  split; [exact H|].
  exact (saved_arrows_break_execute (I := toy_interp) toy_source linked_workspace
           (mk_ExecutionRequest "B" "x + 1") fresh_app H).
Defined.

(** Saving one box without arrows, then running it. *)
Lemma saved_without_arrows_execute_witness :
  ∃ s', execute_code_endpoint toy_source (mk_ExecutionRequest "A" "")
          (snd (update_workspace single_workspace fresh_app)) =
        (Answer (mk_result (OStruct None [("text/plain", "42")]) false),
         mk_app (Saved single_workspace) s').
Proof.
  eexists.
  apply (saved_without_arrows_execute (I := toy_interp) toy_source single_workspace
           (mk_ExecutionRequest "A" "") fresh_app []
           (mk_result (OStruct None [("text/plain", "42")]) false)
           (snd (execute_with_dependencies (I := toy_interp) "A" []
                   (map (box_of toy_source) (Workspace_boxes single_workspace)) [] init_state)));
    [reflexivity|].
  apply pair_of_fst. vm_compute. reflexivity.
Defined.

(** Running a box before any workspace has been saved. *)
Lemma no_workspace_not_found_witness :
  execute_code_endpoint toy_source (mk_ExecutionRequest "A" "x = 41") fresh_app =
    (Answer (mk_result (OText ("Box with ID " ++ "A" ++ " not found")) true),
     mk_app NoFile (mk_state [] ∅ (st_world init_state) [])).
Proof.
  exact (no_workspace_not_found (I := toy_interp) toy_source (mk_ExecutionRequest "A" "x = 41")
           fresh_app (or_introl eq_refl)).
Defined.

End MoreExamples.
